(** * Grammar analysis: FIRST, FOLLOW, LL(1) table and recognizer

    A shallow embedding of [grammar/grammar.py].

    Python values are modelled as follows.
    - [str]: [string].  A symbol is a [str] of length one, obtained by
      indexing ([sub_str[0]]) or by iterating over a [str]; a production's
      [left] is an arbitrary [str], as in the source.
    - [set] of [str]: [gset string].  The empty [str] stands for epsilon
      inside FIRST sets, exactly as in the source.
    - [dict]: [gmap].
    - an ordered collection ([list]): [list].
    - exceptions: the [Raise] outcome; unbounded recursion or an unbounded
      [while] loop: the [Timeout] outcome of a computation run with a
      bounded budget (recursion depth, loop iterations). *)

From Stdlib Require Import Ascii String.
From stdpp Require Import gmap strings list fin_maps fin_sets.

Open Scope string_scope.
Open Scope list_scope.

(** ** Outcomes of a call *)

Inductive exn :=
| ValueError
| IndexError
| KeyError
| RepeatedCellError
| SyntaxError.

Inductive outcome (A : Type) :=
| Ret (a : A)
| Raise (e : exn)
| Timeout.
Arguments Ret {A} a.
Arguments Raise {A} e.
Arguments Timeout {A}.

#[global] Instance outcome_ret : MRet outcome := λ A a, Ret a.
#[global] Instance outcome_bind : MBind outcome := λ A B k m,
  match m with
  | Ret a => k a
  | Raise e => Raise e
  | Timeout => Timeout
  end.

(** ** Strings *)

(** [c] as a one-character [str]. *)
Definition char (c : ascii) : string := String c "".

(** Iterating over a [str] yields its one-character substrings. *)
Fixpoint chars (s : string) : list string :=
  match s with
  | "" => []
  | String c r => char c :: chars r
  end.

(** ** Productions and grammars *)

Record Production := mkProduction { left : string; right : string }.

Record Grammar := mkGrammar {
  terminals : gset string;
  non_terminals : gset string;
  productions : list Production;
  axiom : string
}.

(** The checks of [Grammar.__init__]. *)
Definition symbol_ok (T N : gset string) (s : string) : bool :=
  bool_decide (s ∈ N) || bool_decide (s ∈ T).

Definition production_ok (T N : gset string) (p : Production) : bool :=
  bool_decide (left p ∈ N) && forallb (symbol_ok T N) (chars (right p)).

Definition Grammar_init (T N : gset string) (ps : list Production)
    (ax : string) : outcome Grammar :=
  if bool_decide (T ∩ N ≠ ∅) then Raise ValueError
  else if bool_decide (ax ∉ N) then Raise ValueError
  else if forallb (production_ok T N) ps then Ret (mkGrammar T N ps ax)
  else Raise ValueError.

(** A grammar that [Grammar.__init__] accepts. *)
Definition valid (G : Grammar) : Prop :=
  Grammar_init (terminals G) (non_terminals G) (productions G) (axiom G)
  = Ret G.

(** ** FIRST *)

Section First.
Context (G : Grammar).

(** The [for production in self.productions] loop of
    [compute_first_rec], with the recursive call abstracted as [rec]. *)
Fixpoint first_loop (rec : string → outcome (gset string))
    (c : ascii) (rest : string) (ps : list Production)
    (first_set : gset string) : outcome (gset string) :=
  match ps with
  | [] => Ret first_set
  | p :: ps' =>
      if bool_decide (char c = left p) then
        r ← rec (right p +:+ rest);
        first_loop rec c rest ps' (first_set ∪ r)
      else first_loop rec c rest ps' first_set
  end.

(** [depth] bounds the depth of the recursion. *)
Fixpoint compute_first_rec (depth : nat) (sub_str : string)
    : outcome (gset string) :=
  match depth with
  | 0 => Timeout
  | S d =>
      match sub_str with
      | "" => Ret {[ "" ]}
      | String c rest =>
          if bool_decide (char c ∈ terminals G) then Ret {[ char c ]}
          else first_loop (compute_first_rec d) c rest (productions G) ∅
      end
  end.

(** The [for s in sentence] loop of [compute_first]: [true] when it raises
    nothing. *)
Definition sentence_ok (sentence : string) : bool :=
  forallb (λ s, bool_decide (s ∈ terminals G)
                || bool_decide (s ∈ non_terminals G)) (chars sentence).

Definition compute_first (depth : nat) (sentence : string)
    : outcome (gset string) :=
  if sentence_ok sentence then compute_first_rec depth sentence
  else Raise ValueError.
End First.

(** ** FOLLOW *)

Section Follow.
Context (G : Grammar).

(** [d[k]] on a [dict]: a missing key raises [KeyError]. *)
Definition getitem {K V} `{Countable K} (d : gmap K V) (k : K) : outcome V :=
  match d !! k with
  | Some v => Ret v
  | None => Raise KeyError
  end.

(** [follows[s] = follows[s].union(x)]: a fresh set is stored under [s];
    no set reachable from [follows_old] is mutated. *)
Definition union_into (follows : gmap string (gset string)) (s : string)
    (x : gset string) : outcome (gmap string (gset string)) :=
  old ← getitem follows s;
  Ret (<[ s := old ∪ x ]> follows).

(** The [for i, s in enumerate(p.right)] loop, entered at position [i]
    with [suffix = p.right[i:]]; [i == len(p.right) - 1] holds exactly
    when [p.right[i+1:]] is empty. *)
Fixpoint follow_scan (fuel : nat) (l : string) (suffix : string)
    (follows : gmap string (gset string))
    : outcome (gmap string (gset string)) :=
  match suffix with
  | "" => Ret follows
  | String c rest =>
      let s := char c in
      if bool_decide (s ∈ non_terminals G) then
        if bool_decide (rest = "") then
          old ← getitem follows s;
          fl ← getitem follows l;
          follow_scan fuel l rest (<[ s := old ∪ fl ]> follows)
        else
          first ← compute_first G fuel rest;
          follows1 ←
            (if bool_decide ("" ∈ first) then
               old ← getitem follows s;
               fl ← getitem follows l;
               Ret (<[ s := old ∪ fl ]> follows)
             else Ret follows);
          follows2 ← union_into follows1 s (first ∖ {[ "" ]});
          follow_scan fuel l rest follows2
      else follow_scan fuel l rest follows
  end.

(** The [for p in self.productions] loop: one pass. *)
Fixpoint follow_pass (fuel : nat) (ps : list Production)
    (follows : gmap string (gset string))
    : outcome (gmap string (gset string)) :=
  match ps with
  | [] => Ret follows
  | p :: ps' =>
      follows' ← follow_scan fuel (left p) (right p) follows;
      follow_pass fuel ps' follows'
  end.

(** The [while True] loop; [n] bounds the number of passes, [fuel] the
    recursion depth of the FIRST computations inside a pass. *)
Fixpoint follow_while (n fuel : nat)
    (follows follows_old : gmap string (gset string))
    : outcome (gmap string (gset string)) :=
  match n with
  | 0 => Timeout
  | S n' =>
      follows' ← follow_pass fuel (productions G) follows;
      if bool_decide (follows' = follows_old) then Ret follows'
      else follow_while n' fuel follows' follows'
  end.

Definition compute_follow (fuel : nat) (symbol : string)
    : outcome (gset string) :=
  let follows : gmap string (gset string) :=
    gset_to_gmap ∅ (non_terminals G) in
  match productions G with
  | [] => Raise IndexError
  | p0 :: _ =>
      seed ← getitem follows (left p0);
      let follows := <[ left p0 := seed ∪ {[ "$" ]} ]> follows in
      let follows_old := follows in
      follows ← follow_while fuel fuel follows follows_old;
      getitem follows symbol
  end.
End Follow.

(** ** LL(1) tables *)

Record TableCell := mkTableCell {
  non_terminal : string;
  terminal : string;
  cell_right : string
}.

Record LL1Table := mkLL1Table {
  table_terminals : gset string;
  table_non_terminals : gset string;
  cells : gmap (string * string) string
}.

#[local] Set Warnings "-register-all".
Inductive ParseTree := mkParseTree (root : string) (children : list ParseTree).

Definition cell_key (c : TableCell) : string * string :=
  (non_terminal c, terminal c).

(** The body of the [for c in cells] loop of [LL1Table.__init__]. *)
Definition cell_ok (N T : gset string) (c : TableCell) : bool :=
  bool_decide (non_terminal c ∈ N)
  && bool_decide (terminal c ∈ T)
  && forallb (λ s, bool_decide (s ∈ N) || bool_decide (s ∈ T))
       (chars (cell_right c)).

(** [{(c.non_terminal, c.terminal): c.right for c in cells}]: the cells are
    stored in order, a later one replacing an earlier one with its key. *)
Definition cells_dict (cs : list TableCell) : gmap (string * string) string :=
  foldl (λ d c, <[ cell_key c := cell_right c ]> d) ∅ cs.

Definition LL1Table_init (N T : gset string) (cs : list TableCell)
    : outcome LL1Table :=
  if bool_decide (T ∩ N ≠ ∅) then Raise ValueError
  else if forallb (cell_ok N T) cs then Ret (mkLL1Table T N (cells_dict cs))
  else Raise ValueError.

(** [add_cell] mutates [self]: the result is the table after the call and
    the outcome of the call. *)
Definition add_cell (self : LL1Table) (cell : TableCell)
    : LL1Table * outcome unit :=
  if bool_decide (is_Some (cells self !! cell_key cell)) then
    (self, Raise RepeatedCellError)
  else
    (mkLL1Table (table_terminals self) (table_non_terminals self)
       (<[ cell_key cell := cell_right cell ]> (cells self)),
     Ret ()).

Section Analyze.
Context (self : LL1Table).

(** The condition of the [while] loop. *)
Definition analyze_cond (start input_string : string) : bool :=
  bool_decide (0 < String.length start)
  && bool_decide (0 < String.length input_string).

(** The body of the [while] loop, run on a state where the condition
    holds; it yields the next [(start, input_string)]. *)
Definition analyze_body (start input_string : string)
    : outcome (string * string) :=
  match start, input_string with
  | String x srest, String a irest =>
      match cells self !! (char x, char a) with
      | None => Raise SyntaxError
      | Some rhs =>
          let start' := rhs +:+ srest in
          match start' with
          | String y srest' =>
              if bool_decide (char y = char a) then Ret (srest', irest)
              else Ret (start', input_string)
          | "" => Ret (start', input_string)
          end
      end
  | _, _ => Raise IndexError
  end.

(** The [while] loop; [fuel] bounds the number of iterations. *)
Fixpoint analyze_loop (fuel : nat) (start input_string : string)
    : outcome (string * string) :=
  if analyze_cond start input_string then
    match fuel with
    | 0 => Timeout
    | S f =>
        st ← analyze_body start input_string;
        analyze_loop f st.1 st.2
    end
  else Ret (start, input_string).

Definition analyze (fuel : nat) (input_string start : string)
    : outcome ParseTree :=
  st ← analyze_loop fuel start input_string;
  if bool_decide (st.2 ≠ "$") then Raise SyntaxError
  else Ret (mkParseTree "" []).
End Analyze.

(** ** Table construction *)

Section Table.
Context (G : Grammar).

(** State of the construction: [cells] and [used]. *)
Definition build_state : Type := list TableCell * gset (string * string).

(** One attempt to place a cell; [None] is the early [return None]. *)
Definition place (l t r : string) (st : build_state) : option build_state :=
  if bool_decide ((l, t) ∈ st.2) then None
  else Some (st.1 ++ [mkTableCell l t r], st.2 ∪ {[ (l, t) ]}).

(** The [for t2 in self.compute_follow(p.left)] loop over the elements
    [ts] of the FOLLOW set. *)
Fixpoint place_follow (p : Production) (ts : list string) (st : build_state)
    : option build_state :=
  match ts with
  | [] => Some st
  | t2 :: ts' =>
      match place (left p) t2 (right p) st with
      | None => None
      | Some st' => place_follow p ts' st'
      end
  end.

(** The [for t in self.compute_first(p.right)] loop over the elements
    [ts] of the FIRST set. *)
Fixpoint place_first (fuel : nat) (p : Production) (ts : list string)
    (st : build_state) : outcome (option build_state) :=
  match ts with
  | [] => Ret (Some st)
  | t :: ts' =>
      if bool_decide (t = "") then
        follow ← compute_follow G fuel (left p);
        match place_follow p (elements follow) st with
        | None => Ret None
        | Some st' => place_first fuel p ts' st'
        end
      else
        match place (left p) t (right p) st with
        | None => Ret None
        | Some st' => place_first fuel p ts' st'
        end
  end.

(** The [for p in self.productions] loop. *)
Fixpoint place_productions (fuel : nat) (ps : list Production)
    (st : build_state) : outcome (option build_state) :=
  match ps with
  | [] => Ret (Some st)
  | p :: ps' =>
      first ← compute_first G fuel (right p);
      r ← place_first fuel p (elements first) st;
      match r with
      | None => Ret None
      | Some st' => place_productions fuel ps' st'
      end
  end.

(** A Python [set] is iterated in an order the language leaves open; the
    loops above take the elements in the order of [elements]. *)
Definition get_ll1_table (fuel : nat) : outcome (option LL1Table) :=
  r ← place_productions fuel (productions G) ([], ∅);
  match r with
  | None => Ret None
  | Some st =>
      t ← LL1Table_init (non_terminals G) (terminals G ∪ {[ "$" ]}) st.1;
      Ret (Some t)
  end.

Definition is_ll1 (fuel : nat) : outcome bool :=
  t ← get_ll1_table fuel;
  Ret (bool_decide (is_Some t)).
End Table.

(** * Notions used in the statements, and concrete inputs *)

(** The expression grammar of the test-suite. *)
Definition g_expr : Grammar :=
  mkGrammar {[ "("; ")"; "i"; "+"; "*" ]} {[ "E"; "T"; "X"; "Y" ]}
    [ mkProduction "E" "TX"; mkProduction "X" "+E"; mkProduction "X" "";
      mkProduction "T" "iY"; mkProduction "T" "(E)"; mkProduction "Y" "*T";
      mkProduction "Y" "" ] "E".

(** The table the test-suite expects for [g_expr]. *)
Definition table_expr : outcome LL1Table :=
  LL1Table_init {[ "E"; "T"; "X"; "Y" ]} {[ "("; ")"; "i"; "+"; "*"; "$" ]}
    [ mkTableCell "E" "(" "TX"; mkTableCell "E" "i" "TX";
      mkTableCell "T" "(" "(E)"; mkTableCell "T" "i" "iY";
      mkTableCell "X" "+" "+E"; mkTableCell "X" ")" "";
      mkTableCell "X" "$" ""; mkTableCell "Y" "*" "*T";
      mkTableCell "Y" "+" ""; mkTableCell "Y" ")" "";
      mkTableCell "Y" "$" "" ].

(** The grammar of the test-suite that is not LL(1). *)
Definition g_not_ll1 : Grammar :=
  mkGrammar {[ "a"; "*" ]} {[ "X"; "I"; "A"; "D" ]}
    [ mkProduction "X" "I*AD"; mkProduction "I" "A*I"; mkProduction "I" "a";
      mkProduction "I" ""; mkProduction "A" "aa*A"; mkProduction "A" "a";
      mkProduction "A" ""; mkProduction "D" "*"; mkProduction "D" "" ] "X".

(** Productions listed with the axiom's production last. *)
Definition g_axiom_last : Grammar :=
  mkGrammar {[ "a" ]} {[ "S"; "A" ]}
    [ mkProduction "A" "a"; mkProduction "S" "A" ] "S".

(** Derivation in a grammar, for comparison with the recognizer: [derives G
    u w] holds when [w] is obtained from [u] by rewriting occurrences of
    left-hand sides of productions of [G] into their right-hand sides. *)
Inductive derives (G : Grammar) : string → string → Prop :=
| derives_refl w : derives G w w
| derives_step u v w p :
    p ∈ productions G →
    derives G (u +:+ right p +:+ v) w →
    derives G (u +:+ left p +:+ v) w.

(** A single production whose right-hand side is two terminals. *)
Definition g_ab : Grammar :=
  mkGrammar {[ "a"; "b" ]} {[ "S" ]} [ mkProduction "S" "ab" ] "S".

(** [compute_first] returns [R] on [sentence], for some recursion budget. *)
Definition first_is (G : Grammar) (sentence : string) (R : gset string)
    : Prop :=
  ∃ fuel, compute_first G fuel sentence = Ret R.

(** A call that exhausts every budget: it neither returns nor raises. *)
Definition diverges {A} (run : nat → outcome A) : Prop :=
  ∀ fuel, run fuel = Timeout.

(** The grammar with the single production [A -> A]. *)
Definition g_loop : Grammar :=
  mkGrammar ∅ {[ "A" ]} [ mkProduction "A" "A" ] "A".

(** Absence of left recursion, certified by a set [nl] of symbols and a
    [rank]: in a right-hand side, every symbol that is not a terminal and
    is preceded only by symbols of [nl] ranks strictly below the left-hand
    side. *)
Fixpoint heads_ok (G : Grammar) (nl : string → bool) (rank : string → nat)
    (l : string) (gamma : string) : bool :=
  match gamma with
  | "" => true
  | String c rest =>
      if bool_decide (char c ∈ terminals G) then true
      else bool_decide (rank (char c) < rank l)%nat
           && (if nl (char c) then heads_ok G nl rank l rest else true)
  end.

(** [nl] is closed under the productions (so it holds every symbol that
    derives the empty string) and the heads of [p] are ranked. *)
Definition production_ranked (G : Grammar) (nl : string → bool)
    (rank : string → nat) (p : Production) : bool :=
  implb (forallb nl (chars (right p))) (nl (left p))
  && heads_ok G nl rank (left p) (right p).

Definition no_left_recursion (G : Grammar) (nl : string → bool)
    (rank : string → nat) : bool :=
  forallb (production_ranked G nl rank) (productions G).

(** The sentences on which the recursion of [compute_first_rec] is
    well founded. *)
Inductive first_dom (G : Grammar) : string → Prop :=
| first_dom_empty : first_dom G ""
| first_dom_terminal c rest :
    char c ∈ terminals G → first_dom G (String c rest)
| first_dom_expand c rest :
    char c ∉ terminals G →
    (∀ p, p ∈ productions G → left p = char c →
          first_dom G (right p +:+ rest)) →
    first_dom G (String c rest).

(** One iteration of the loop of [analyze], as a relation on the pairs
    (stack, remaining input): the cell for (top of stack, current input
    symbol) replaces the top by its right-hand side; if the new top equals
    the current input symbol, both are dropped. *)
Inductive step (self : LL1Table) : string * string → string * string → Prop :=
| step_match x srest a irest rhs srest' :
    cells self !! (char x, char a) = Some rhs →
    rhs +:+ srest = String a srest' →
    step self (String x srest, String a irest) (srest', irest)
| step_expand x srest a irest rhs :
    cells self !! (char x, char a) = Some rhs →
    (∀ srest', rhs +:+ srest ≠ String a srest') →
    step self (String x srest, String a irest) (rhs +:+ srest, String a irest).

(** (a) some iteration finds no cell for its pair. *)
Definition no_prediction (self : LL1Table) (start input_string : string)
    : Prop :=
  ∃ x srest a irest,
    rtc (step self) (start, input_string) (String x srest, String a irest)
    ∧ cells self !! (char x, char a) = None.

(** (b) the loop exits, the stack or the input being empty, and what is
    left of the input is not the end marker alone. *)
Definition bad_remainder (self : LL1Table) (start input_string : string)
    : Prop :=
  ∃ s i, rtc (step self) (start, input_string) (s, i)
         ∧ (s = "" ∨ i = "") ∧ i ≠ "$".

(** The loop exits with the end marker alone as remaining input. *)
Definition accepting_exit (self : LL1Table) (start input_string : string)
    : Prop :=
  rtc (step self) (start, input_string) ("", "$").

(** A table whose only cell rewrites [A] into itself. *)
Definition table_cycle : LL1Table :=
  mkLL1Table {[ "a"; "$" ]} {[ "A" ]} {[ ("A", "a") := "A" ]}.

(** The cells the loops of [get_ll1_table] attempt to place, in the order
    of the attempts, the [used] check left out: for each production, the
    cells for its FIRST set, the empty string being replaced by the cells
    for the FOLLOW set of its left-hand side. *)
Definition follow_cells (p : Production) (ts : list string) : list TableCell :=
  map (λ t2, mkTableCell (left p) t2 (right p)) ts.

Fixpoint first_cells (G : Grammar) (fuel : nat) (p : Production)
    (ts : list string) : outcome (list TableCell) :=
  match ts with
  | [] => Ret []
  | t :: ts' =>
      cs ← (if bool_decide (t = "") then
              follow ← compute_follow G fuel (left p);
              Ret (follow_cells p (elements follow))
            else Ret [ mkTableCell (left p) t (right p) ]);
      cs' ← first_cells G fuel p ts';
      Ret (cs ++ cs')
  end.

Definition production_cells (G : Grammar) (fuel : nat) (p : Production)
    : outcome (list TableCell) :=
  first ← compute_first G fuel (right p);
  first_cells G fuel p (elements first).

Fixpoint attempts_of (G : Grammar) (fuel : nat) (ps : list Production)
    : outcome (list TableCell) :=
  match ps with
  | [] => Ret []
  | p :: ps' =>
      cs ← production_cells G fuel p;
      cs' ← attempts_of G fuel ps';
      Ret (cs ++ cs')
  end.

Definition attempts (G : Grammar) (fuel : nat) : outcome (list TableCell) :=
  attempts_of G fuel (productions G).

(** Placing a list of cells one after the other. *)
Fixpoint place_all (cs : list TableCell) (st : build_state)
    : option build_state :=
  match cs with
  | [] => Some st
  | c :: cs' =>
      match place (non_terminal c) (terminal c) (cell_right c) st with
      | None => None
      | Some st' => place_all cs' st'
      end
  end.

(** The production [A -> a] listed twice. *)
Definition g_twice : Grammar :=
  mkGrammar {[ "a" ]} {[ "A" ]}
    [ mkProduction "A" "a"; mkProduction "A" "a" ] "A".

(** [R] is [Ru] when [Ru] lacks the empty string, and otherwise [Ru]
    without the empty string, joined with what [run] returns. *)
Definition first_cat (run : outcome (gset string)) (Ru R : gset string)
    : Prop :=
  (("" ∉ Ru) ∧ R = Ru)
  ∨ ("" ∈ Ru ∧ ∃ Rs, run = Ret Rs ∧ R = (Ru ∖ {[ "" ]}) ∪ Rs).

(** [starts G a s]: expanding the head of [s] through the productions, as
    [compute_first_rec] does, can bring the terminal [a] to the front. *)
Inductive starts (G : Grammar) (a : ascii) : string → Prop :=
| starts_terminal rest :
    char a ∈ terminals G → starts G a (String a rest)
| starts_expand c rest p :
    char c ∉ terminals G → p ∈ productions G → left p = char c →
    starts G a (right p +:+ rest) → starts G a (String c rest).

(** [erasable G s]: expanding the head of [s] through the productions can
    use [s] up. *)
Inductive erasable (G : Grammar) : string → Prop :=
| erasable_nil : erasable G ""
| erasable_expand c rest p :
    char c ∉ terminals G → p ∈ productions G → left p = char c →
    erasable G (right p +:+ rest) → erasable G (String c rest).

(** Every left-hand side is a single character. *)
Definition single_lefts (G : Grammar) : bool :=
  forallb (λ p, bool_decide (String.length (left p) = 1)) (productions G).

(** The dictionary [follows] that [compute_follow] holds when its loop
    ends; [compute_follow] returns its entry for the queried symbol. *)
Definition follow_table (G : Grammar) (fuel : nat)
    : outcome (gmap string (gset string)) :=
  match productions G with
  | [] => Raise IndexError
  | p0 :: _ =>
      seed ← getitem (gset_to_gmap ∅ (non_terminals G)) (left p0);
      follow_while G fuel fuel
        (<[ left p0 := seed ∪ {[ "$" ]} ]> (gset_to_gmap ∅ (non_terminals G)))
        (<[ left p0 := seed ∪ {[ "$" ]} ]> (gset_to_gmap ∅ (non_terminals G)))
  end.

(** [g] has the keys of [f] and holds at least what [f] holds. *)
Definition follows_le (f g : gmap string (gset string)) : Prop :=
  dom f = dom g
  ∧ ∀ k v v', f !! k = Some v → g !! k = Some v' → v ⊆ v'.

(** What a FOLLOW set may hold: the end marker or a one-character
    terminal. *)
Definition follow_symbol (G : Grammar) (x : string) : Prop :=
  x = "$" ∨ (x ∈ terminals G ∧ String.length x = 1).

(** Every set of [f] holds such symbols only. *)
Definition follows_in (G : Grammar) (f : gmap string (gset string)) : Prop :=
  ∀ k v x, f !! k = Some v → x ∈ v → follow_symbol G x.

(** What the body of the loop over [p.right] adds to the FOLLOW set of the
    non-terminal it stands on, [rest] being what follows that non-terminal
    in the right-hand side and [l] the left-hand side. *)
Definition contribution (G : Grammar) (fuel : nat) (l rest : string)
    (f : gmap string (gset string)) (X : gset string) : Prop :=
  (rest = "" ∧ f !! l = Some X)
  ∨ (rest ≠ ""
     ∧ ∃ first, compute_first G fuel rest = Ret first
         ∧ (("" ∈ first
             ∧ ∃ fl, f !! l = Some fl ∧ X = fl ∪ (first ∖ {[ "" ]}))
            ∨ (("" ∉ first) ∧ X = first ∖ {[ "" ]}))).

(** The number of symbols a dictionary [f] holds under the keys of [N],
    which bounds the number of passes of the loop of [compute_follow]. *)
Definition follows_size (N : gset string) (f : gmap string (gset string))
    : nat :=
  sum_list_with (λ k, size (default ∅ (f !! k))) (elements N).

(** [ParseTree.__eq__]: equal roots, as many children, and the children
    equal pairwise (the pairs of [zip]). *)
Fixpoint ParseTree_eq (t1 t2 : ParseTree) {struct t1} : bool :=
  match t1, t2 with
  | mkParseTree r1 cs1, mkParseTree r2 cs2 =>
      bool_decide (r1 = r2)
      && bool_decide (length cs1 = length cs2)
      && (fix all_eq (l1 l2 : list ParseTree) {struct l1} : bool :=
            match l1, l2 with
            | x :: l1', y :: l2' => ParseTree_eq x y && all_eq l1' l2'
            | _, _ => true
            end) cs1 cs2
  end.

(** [ParseTree.add_children] replaces the children. *)
Definition add_children (t : ParseTree) (cs : list ParseTree) : ParseTree :=
  match t with
  | mkParseTree r _ => mkParseTree r cs
  end.

(** * Properties *)

(** ** Scenarios of the test-suite *)

Example first_YXT :
  compute_first g_expr 10 "YXT" = Ret {[ "+"; "*"; "i"; "(" ]}.
Proof. vm_compute. reflexivity. Qed.

Example follow_X : compute_follow g_expr 10 "X" = Ret {[ "$"; ")" ]}.
Proof. vm_compute. reflexivity. Qed.

Example follow_Y : compute_follow g_expr 10 "Y" = Ret {[ "$"; ")"; "+" ]}.
Proof. vm_compute. reflexivity. Qed.

Example table_of_g_expr :
  get_ll1_table g_expr 10 = (t ← table_expr; Ret (Some t)).
Proof. vm_compute. reflexivity. Qed.

Example analyze_accept :
  (t ← table_expr; analyze t 100 "i*i+i+(i*i)$" "E") = Ret (mkParseTree "" []).
Proof. vm_compute. reflexivity. Qed.

Example analyze_no_end_marker :
  (t ← table_expr; analyze t 100 "i*i" "E") = Raise SyntaxError.
Proof. vm_compute. reflexivity. Qed.

Example analyze_unbalanced :
  (t ← table_expr; analyze t 100 "(i$" "E") = Raise SyntaxError.
Proof. vm_compute. reflexivity. Qed.

Example first_I : compute_first g_not_ll1 10 "I" = Ret {[ ""; "a"; "*" ]}.
Proof. vm_compute. reflexivity. Qed.

Example first_unknown_symbol : compute_first g_not_ll1 10 "w" = Raise ValueError.
Proof. vm_compute. reflexivity. Qed.

Example table_of_g_not_ll1 : get_ll1_table g_not_ll1 10 = Ret None.
Proof. vm_compute. reflexivity. Qed.

(** ** Generic facts *)

Lemma bind_Ret {A B} (m : outcome A) (k : A → outcome B) (b : B) :
  m ≫= k = Ret b ↔ ∃ a, m = Ret a ∧ k a = Ret b.
Proof.
  destruct m as [a| |]; simpl; split.
  - intros H. by exists a.
  - by intros (a' & [= <-] & H).
  - done.
  - by intros (a' & ? & H).
  - done.
  - by intros (a' & ? & H).
Qed.

Lemma bind_Raise {A B} (m : outcome A) (k : A → outcome B) (e : exn) :
  m ≫= k = Raise e ↔ m = Raise e ∨ ∃ a, m = Ret a ∧ k a = Raise e.
Proof.
  destruct m as [a| |]; simpl; split.
  - intros H. right. by exists a.
  - by intros [? | (a' & [= <-] & H)].
  - intros [= ->]. by left.
  - by intros [[= ->] | (a' & ? & H)].
  - done.
  - by intros [? | (a' & ? & H)].
Qed.

Lemma forallb_chars_app (f : string → bool) (u v : string) :
  forallb f (chars (u +:+ v)) = forallb f (chars u) && forallb f (chars v).
Proof. induction u as [|c u IH]; simpl; [done|]. by rewrite IH, andb_assoc. Qed.

Lemma forallb_false_elem {A} (f : A → bool) (l : list A) :
  forallb f l = false ↔ ∃ x, x ∈ l ∧ f x = false.
Proof.
  induction l as [|a l IH]; simpl.
  - split; [done|]. intros (x & Hx & _). by apply elem_of_nil in Hx.
  - rewrite andb_false_iff, IH. split.
    + intros [Ha | (x & Hx & Hf)]; [exists a|exists x]; split; auto; by constructor.
    + intros (x & Hx & Hf). apply elem_of_cons in Hx as [-> | Hx]; eauto.
Qed.

(** ** FIRST never raises by itself *)

Lemma first_loop_no_raise rec c rest ps acc e :
  (∀ s, rec s ≠ Raise e) → first_loop rec c rest ps acc ≠ Raise e.
Proof.
  intros Hrec. revert acc. induction ps as [|p ps IH]; intros acc; simpl.
  - done.
  - case_bool_decide; [|apply IH].
    intros [Hr | (r & _ & Hr)]%bind_Raise; [by apply (Hrec _ Hr)|by apply (IH _ Hr)].
Qed.

Lemma compute_first_rec_no_raise G depth s e :
  compute_first_rec G depth s ≠ Raise e.
Proof.
  revert s. induction depth as [|d IH]; intros s; simpl; [done|].
  destruct s as [|c rest]; [done|].
  case_bool_decide; [done|]. by apply first_loop_no_raise.
Qed.

(** C7.  [compute_first] raises the invalid-symbol error ([ValueError])
    exactly when some symbol of the sentence is in neither alphabet; this
    holds for every grammar, valid or not, and for every recursion budget. *)
Theorem compute_first_invalid_symbol (G : Grammar) (fuel : nat)
    (sentence : string) :
  compute_first G fuel sentence = Raise ValueError
  ↔ (∃ s, s ∈ chars sentence ∧ (s ∉ terminals G) ∧ (s ∉ non_terminals G)).
Proof.
  unfold compute_first, sentence_ok.
  destruct (forallb _ (chars sentence)) eqn:Hall.
  - split.
    + intros H. by apply compute_first_rec_no_raise in H.
    + intros (s & Hin & HT & HN).
      rewrite forallb_forall in Hall.
      apply list_elem_of_In, Hall, orb_true_iff in Hin.
      destruct Hin as [?%bool_decide_eq_true | ?%bool_decide_eq_true]; done.
  - split; [intros _|done].
    apply forallb_false_elem in Hall as (s & Hin & Hs).
    apply orb_false_iff in Hs as [HT%bool_decide_eq_false HN%bool_decide_eq_false].
    by exists s.
Qed.

(** ** [add_cell] *)

(** C8.  [add_cell] raises the repeated-cell error exactly when the key
    [(cell.non_terminal, cell.terminal)] is already in the table, and then
    leaves the table as it was; on a free key it succeeds, the key is
    afterwards mapped to the cell's right-hand side, and every other key
    keeps its entry. *)
Theorem add_cell_spec (self : LL1Table) (cell : TableCell) :
  ((add_cell self cell).2 = Raise RepeatedCellError
   ↔ is_Some (cells self !! cell_key cell))
  ∧ ((add_cell self cell).2 = Raise RepeatedCellError
     → (add_cell self cell).1 = self)
  ∧ (cells self !! cell_key cell = None
     → (add_cell self cell).2 = Ret ()
       ∧ cells (add_cell self cell).1 !! cell_key cell
         = Some (cell_right cell)
       ∧ ∀ k, k ≠ cell_key cell
           → cells (add_cell self cell).1 !! k = cells self !! k).
Proof.
  unfold add_cell. case_bool_decide as Hk; simpl.
  - split_and!; [done|done|].
    intros Hnone. rewrite Hnone in Hk. by destruct Hk.
  - split_and!; [done|done|].
    intros _. split_and!; [done|apply lookup_insert_eq|].
    intros k Hne. by apply lookup_insert_ne.
Qed.

(** ** [LL1Table.__init__] *)

Lemma cells_fold_other (cs : list TableCell) (d : gmap (string * string) string)
    (k : string * string) :
  Forall (λ c, cell_key c ≠ k) cs →
  foldl (λ d c, <[ cell_key c := cell_right c ]> d) d cs !! k = d !! k.
Proof.
  revert d. induction cs as [|c cs IH]; intros d Hall; simpl; [done|].
  apply Forall_cons in Hall as [Hc Hcs].
  rewrite IH by done. by apply lookup_insert_ne.
Qed.

Lemma cells_dict_last (cs cs' : list TableCell) (c : TableCell) :
  Forall (λ c', cell_key c' ≠ cell_key c) cs' →
  cells_dict (cs ++ c :: cs') !! cell_key c = Some (cell_right c).
Proof.
  intros Hlater. unfold cells_dict. rewrite foldl_app. simpl.
  rewrite cells_fold_other by done. apply lookup_insert_eq.
Qed.

(** C9.  [LL1Table.__init__] performs no duplicate-key check: a collection
    holding two cells with one key and different right-hand sides is
    accepted whenever the alphabets are disjoint and each cell passes the
    alphabet checks, and the table then maps the key to the right-hand side
    of the last cell of the collection that has this key. *)
Theorem LL1Table_init_duplicate_key (N T : gset string)
    (cs1 cs2 cs3 : list TableCell) (c1 c2 : TableCell) :
  T ∩ N = ∅ →
  forallb (cell_ok N T) (cs1 ++ c1 :: cs2 ++ c2 :: cs3) = true →
  cell_key c1 = cell_key c2 →
  cell_right c1 ≠ cell_right c2 →
  Forall (λ c, cell_key c ≠ cell_key c2) cs3 →
  ∃ t, LL1Table_init N T (cs1 ++ c1 :: cs2 ++ c2 :: cs3) = Ret t
       ∧ cells t !! cell_key c1 = Some (cell_right c2)
       ∧ cells t !! cell_key c1 ≠ Some (cell_right c1).
Proof.
  intros Hdisj Hok Hkey Hne Hlater. unfold LL1Table_init.
  rewrite bool_decide_eq_false_2 by (by intros ?).
  rewrite Hok. eexists. split; [done|]. simpl.
  assert (cells_dict (cs1 ++ c1 :: cs2 ++ c2 :: cs3) !! cell_key c1
          = Some (cell_right c2)) as ->.
  { rewrite Hkey.
    replace (cs1 ++ c1 :: cs2 ++ c2 :: cs3) with ((cs1 ++ c1 :: cs2) ++ c2 :: cs3)
      by (by rewrite <- app_assoc).
    by apply cells_dict_last. }
  split; [done|]. intros [= Heq]. by apply Hne.
Qed.

Lemma LL1Table_init_duplicate_key_witness :
  ∃ t, LL1Table_init {[ "A" ]} {[ "a"; "b" ]}
         ([] ++ mkTableCell "A" "a" "a" :: [] ++ mkTableCell "A" "a" "b" :: [])
       = Ret t
       ∧ cells t !! cell_key (mkTableCell "A" "a" "a") = Some "b"
       ∧ cells t !! cell_key (mkTableCell "A" "a" "a") ≠ Some "a".
Proof.
  apply (LL1Table_init_duplicate_key {[ "A" ]} {[ "a"; "b" ]} [] [] []
           (mkTableCell "A" "a" "a") (mkTableCell "A" "a" "b")).
  - vm_compute. reflexivity.
  - vm_compute. reflexivity.
  - reflexivity.
  - simpl. discriminate.
  - constructor.
Defined.

(** ** FOLLOW on a grammar without productions *)

(** C10.  [Grammar.__init__] accepts an empty production collection (the
    alphabets being disjoint and the axiom a non-terminal), and on such a
    grammar [compute_follow] raises [IndexError] for every symbol, the
    axiom included, before it enters its loop: it never returns a set. *)
Theorem compute_follow_no_productions (T N : gset string) (ax : string) :
  T ∩ N = ∅ → ax ∈ N →
  Grammar_init T N [] ax = Ret (mkGrammar T N [] ax)
  ∧ ∀ fuel symbol,
      compute_follow (mkGrammar T N [] ax) fuel symbol = Raise IndexError.
Proof.
  intros Hdisj Hax. split; [|done].
  unfold Grammar_init.
  rewrite bool_decide_eq_false_2 by (by intros ?).
  rewrite bool_decide_eq_false_2 by (by intros ?). done.
Qed.

Lemma compute_follow_no_productions_witness :
  Grammar_init {[ "a" ]} {[ "S" ]} [] "S" = Ret (mkGrammar {[ "a" ]} {[ "S" ]} [] "S")
  ∧ ∀ fuel symbol,
      compute_follow (mkGrammar {[ "a" ]} {[ "S" ]} [] "S") fuel symbol
      = Raise IndexError.
Proof.
  apply (compute_follow_no_productions {[ "a" ]} {[ "S" ]} "S").
  - vm_compute. reflexivity.
  - vm_compute. reflexivity.
Defined.

(** ** FOLLOW of the axiom *)

(** C1.  On [g_axiom_last], a grammar [Grammar.__init__] accepts and whose
    first production is not the axiom's, [compute_follow] returns the empty
    set for the axiom: the end marker is seeded into the FOLLOW set of
    [productions[0].left] and never reaches the axiom's. *)
Theorem compute_follow_axiom_not_seeded :
  valid g_axiom_last
  ∧ axiom g_axiom_last = "S"
  ∧ (∀ fuel, compute_follow g_axiom_last (S fuel) "S" = Ret ∅)
  ∧ (∀ fuel, compute_follow g_axiom_last (S fuel) "A" = Ret {[ "$" ]}).
Proof.
  split_and!.
  - vm_compute. reflexivity.
  - reflexivity.
  - intros fuel. vm_compute. reflexivity.
  - intros fuel. vm_compute. reflexivity.
Qed.

(** ** Round trip between table construction and the recognizer *)

(** C4.  [g_ab] is accepted by [Grammar.__init__], [get_ll1_table] returns
    a table for it and ["ab"] is derivable from its axiom, yet [analyze]
    run with that table on ["ab$"] raises [SyntaxError]: after the first
    terminal of the right-hand side is matched, the loop looks up the pair
    [("b", "b")], whose first component is a terminal. *)
Theorem analyze_rejects_derivable :
  valid g_ab
  ∧ derives g_ab (axiom g_ab) "ab"
  ∧ ∃ t, (∀ fuel, get_ll1_table g_ab (S fuel) = Ret (Some t))
         ∧ cells t = {[ ("S", "a") := "ab" ]}
         ∧ (∀ fuel, analyze t (S (S fuel)) "ab$" (axiom g_ab)
                    = Raise SyntaxError).
Proof.
  split_and!.
  - vm_compute. reflexivity.
  - apply (derives_step g_ab "" "" "ab" (mkProduction "S" "ab")).
    + apply list_elem_of_here.
    + apply derives_refl.
  - exists (mkLL1Table {[ "a"; "b"; "$" ]} {[ "S" ]} {[ ("S", "a") := "ab" ]}).
    split_and!.
    + intros fuel. vm_compute. reflexivity.
    + reflexivity.
    + intros fuel. vm_compute. reflexivity.
Qed.

(** ** The recursive definition of FIRST *)

Lemma valid_inv (G : Grammar) :
  valid G →
  terminals G ∩ non_terminals G = ∅
  ∧ axiom G ∈ non_terminals G
  ∧ forallb (production_ok (terminals G) (non_terminals G)) (productions G)
    = true.
Proof.
  unfold valid, Grammar_init.
  case_bool_decide as H1; [done|]. case_bool_decide as H2; [done|].
  destruct (forallb _ _); [|done]. intros _.
  by split_and!.
Qed.

Lemma valid_right_ok (G : Grammar) (p : Production) :
  valid G → p ∈ productions G → sentence_ok G (right p) = true.
Proof.
  intros (_ & _ & Hps)%valid_inv Hp.
  rewrite forallb_forall in Hps.
  apply list_elem_of_In, Hps, andb_true_iff in Hp as [_ Hr].
  unfold sentence_ok. rewrite forallb_forall in Hr |- *.
  intros s Hs. specialize (Hr s Hs). unfold symbol_ok in Hr.
  by rewrite orb_comm.
Qed.

Lemma sentence_ok_app (G : Grammar) (u v : string) :
  sentence_ok G (u +:+ v) = sentence_ok G u && sentence_ok G v.
Proof. apply forallb_chars_app. Qed.

Lemma first_loop_Ret_inv rec c rest ps acc R :
  first_loop rec c rest ps acc = Ret R →
  (∀ p, p ∈ ps → left p = char c → ∃ Rp, rec (right p +:+ rest) = Ret Rp)
  ∧ ∀ x, x ∈ R ↔ x ∈ acc ∨ ∃ p Rp, p ∈ ps ∧ left p = char c
                                 ∧ rec (right p +:+ rest) = Ret Rp ∧ x ∈ Rp.
Proof.
  revert acc. induction ps as [|p ps IH]; intros acc; simpl.
  - intros [= <-]. split; [by intros p ?%elem_of_nil|].
    intros x. split; [by left|]. by intros [?|(p & Rp & ?%elem_of_nil & _)].
  - case_bool_decide as Hl.
    + intros (r & Hr & Hloop)%bind_Ret. apply IH in Hloop as [Hsub Hin].
      split.
      * intros q [-> | Hq]%elem_of_cons Hq'; eauto.
      * intros x. rewrite Hin, elem_of_union. split.
        -- intros [[Hx | Hx] | (q & Rq & Hq & Hlq & Hrq & Hx)]; [by left|..].
           ++ right. exists p, r. split_and!; [apply list_elem_of_here|done..].
           ++ right. exists q, Rq. split_and!; [by apply list_elem_of_further|done..].
        -- intros [Hx | (q & Rq & [-> | Hq]%elem_of_cons & Hlq & Hrq & Hx)].
           ++ by left; left.
           ++ left; right. congruence.
           ++ right. by exists q, Rq.
    + intros Hloop. apply IH in Hloop as [Hsub Hin]. split.
      * intros q [-> | Hq]%elem_of_cons Hq'; [congruence|eauto].
      * intros x. rewrite Hin. split.
        -- intros [Hx | (q & Rq & Hq & Hlq & Hrq & Hx)]; [by left|].
           right. exists q, Rq. split_and!; [by apply list_elem_of_further|done..].
        -- intros [Hx | (q & Rq & [-> | Hq]%elem_of_cons & Hlq & Hrq & Hx)];
             [by left|congruence|].
           right. by exists q, Rq.
Qed.

Lemma first_loop_mono (rec rec' : string → outcome (gset string)) c rest ps acc R :
  (∀ s r, rec s = Ret r → rec' s = Ret r) →
  first_loop rec c rest ps acc = Ret R →
  first_loop rec' c rest ps acc = Ret R.
Proof.
  intros Hrec. revert acc. induction ps as [|p ps IH]; intros acc; simpl; [done|].
  case_bool_decide; [|apply IH].
  intros (r & Hr & Hloop)%bind_Ret. rewrite (Hrec _ _ Hr). simpl. by apply IH.
Qed.

Lemma compute_first_rec_mono (G : Grammar) (d d' : nat) (s : string) R :
  (d ≤ d')%nat →
  compute_first_rec G d s = Ret R → compute_first_rec G d' s = Ret R.
Proof.
  revert d' s R. induction d as [|d IH]; intros d' s R Hle; simpl; [done|].
  destruct d' as [|d']; [lia|]. simpl.
  destruct s as [|c rest]; [done|].
  case_bool_decide; [done|].
  apply first_loop_mono. intros s r. apply IH. lia.
Qed.

Lemma compute_first_rec_det (G : Grammar) (d d' : nat) (s : string) R R' :
  compute_first_rec G d s = Ret R → compute_first_rec G d' s = Ret R' → R = R'.
Proof.
  intros H H'.
  apply (compute_first_rec_mono G d (d `max` d')) in H; [|lia].
  apply (compute_first_rec_mono G d' (d `max` d')) in H'; [|lia].
  congruence.
Qed.

Lemma compute_first_Ret (G : Grammar) (fuel : nat) (s : string) R :
  compute_first G fuel s = Ret R
  ↔ sentence_ok G s = true ∧ compute_first_rec G fuel s = Ret R.
Proof.
  unfold compute_first. destruct (sentence_ok G s).
  - split; [by split|by intros [_ ?]].
  - split; [done|by intros [? _]].
Qed.

(** C5.  On a grammar accepted by [Grammar.__init__], whenever
    [compute_first] returns, its result is the one of the recursive
    definition of FIRST: it does not depend on the recursion budget; the
    empty sentence yields the set holding only the empty string (epsilon);
    a sentence over the alphabets that begins with a terminal [a] yields
    [{a}], whatever follows; and if it returns [R] on a sentence beginning
    with a non-terminal [A], then it returns on [gamma + rest] for every
    production [A -> gamma], and [R] is the union of those results. *)
Theorem compute_first_recursive_definition (G : Grammar) :
  valid G →
  (∀ s R R', first_is G s R → first_is G s R' → R = R')
  ∧ first_is G "" {[ "" ]}
  ∧ (∀ a rest,
       char a ∈ terminals G → sentence_ok G (String a rest) = true →
       first_is G (String a rest) {[ char a ]})
  ∧ (∀ A rest R,
       char A ∈ non_terminals G → first_is G (String A rest) R →
       (∀ p, p ∈ productions G → left p = char A →
             ∃ Rp, first_is G (right p +:+ rest) Rp)
       ∧ ∀ x, x ∈ R ↔ ∃ p Rp, p ∈ productions G ∧ left p = char A
                              ∧ first_is G (right p +:+ rest) Rp ∧ x ∈ Rp).
Proof.
  intros Hvalid. split_and!.
  - intros s R R' [d [_ H]%compute_first_Ret] [d' [_ H']%compute_first_Ret].
    by eapply compute_first_rec_det.
  - by exists 1.
  - intros a rest Ha Hok. exists 1. apply compute_first_Ret. split; [done|].
    simpl. by rewrite bool_decide_eq_true_2.
  - intros A rest R HA [fuel [Hok Hrec]%compute_first_Ret].
    destruct (valid_inv G Hvalid) as (Hdisj & _ & _).
    assert (char A ∉ terminals G) as HnT by set_solver.
    destruct fuel as [|d]; [done|]. simpl in Hrec.
    rewrite bool_decide_eq_false_2 in Hrec by done.
    apply first_loop_Ret_inv in Hrec as [Hsub Hin].
    assert (sentence_ok G rest = true) as Hrest.
    { change (String A rest) with (char A +:+ rest) in Hok.
      rewrite sentence_ok_app in Hok. by apply andb_true_iff in Hok as [_ ?]. }
    assert (∀ p, p ∈ productions G →
                 sentence_ok G (right p +:+ rest) = true) as Hsok.
    { intros p Hp. rewrite sentence_ok_app, Hrest, andb_true_r.
      by apply valid_right_ok. }
    split.
    + intros p Hp Hl. destruct (Hsub p Hp Hl) as [Rp HRp].
      exists Rp, d. apply compute_first_Ret. auto.
    + intros x. rewrite Hin. split.
      * intros [Hx | (p & Rp & Hp & Hl & HRp & Hx)]; [set_solver|].
        exists p, Rp. split_and!; [done..| |done].
        exists d. apply compute_first_Ret. auto.
      * intros (p & Rp & Hp & Hl & [d' [_ HRp]%compute_first_Ret] & Hx).
        right. destruct (Hsub p Hp Hl) as [Rp' HRp'].
        exists p, Rp'. split_and!; [done..|].
        by rewrite (compute_first_rec_det G _ _ _ _ _ HRp' HRp).
Qed.

Lemma compute_first_recursive_definition_witness :
  (∀ s R R', first_is g_expr s R → first_is g_expr s R' → R = R')
  ∧ first_is g_expr "" {[ "" ]}
  ∧ (∀ a rest,
       char a ∈ terminals g_expr → sentence_ok g_expr (String a rest) = true →
       first_is g_expr (String a rest) {[ char a ]})
  ∧ (∀ A rest R,
       char A ∈ non_terminals g_expr → first_is g_expr (String A rest) R →
       (∀ p, p ∈ productions g_expr → left p = char A →
             ∃ Rp, first_is g_expr (right p +:+ rest) Rp)
       ∧ ∀ x, x ∈ R ↔ ∃ p Rp, p ∈ productions g_expr ∧ left p = char A
                              ∧ first_is g_expr (right p +:+ rest) Rp ∧ x ∈ Rp).
Proof.
  apply (compute_first_recursive_definition g_expr).
  vm_compute. reflexivity.
Defined.

(** ** Termination of FIRST *)

Lemma compute_first_loop_diverges :
  diverges (λ fuel, compute_first g_loop fuel "A").
Proof.
  intros fuel. unfold compute_first.
  replace (sentence_ok g_loop "A") with true by (vm_compute; reflexivity).
  induction fuel as [|d IH]; [done|].
  simpl. rewrite bool_decide_eq_false_2 by set_solver.
  change ("A" +:+ "") with "A". by rewrite IH.
Qed.

(** C2 (as stated, refuted).  [g_loop] is accepted by [Grammar.__init__]
    and ["A"] is a sentence over its alphabets, yet [compute_first] on it
    exhausts every recursion budget: it never returns a set. *)
Lemma compute_first_unbounded_recursion :
  valid g_loop
  ∧ sentence_ok g_loop "A" = true
  ∧ diverges (λ fuel, compute_first g_loop fuel "A").
Proof.
  split_and!; [vm_compute; reflexivity..|].
  apply compute_first_loop_diverges.
Qed.

Lemma first_loop_total (G : Grammar) c rest ps :
  (∀ p, p ∈ ps → left p = char c →
        ∃ d R, compute_first_rec G d (right p +:+ rest) = Ret R) →
  ∃ d, ∀ acc, ∃ R,
    first_loop (compute_first_rec G d) c rest ps acc = Ret R.
Proof.
  induction ps as [|p ps IH]; intros Hsub.
  - exists 0. intros acc. by exists acc.
  - destruct IH as [d1 Hd1].
    { intros q Hq. apply Hsub. by apply list_elem_of_further. }
    destruct (decide (char c = left p)) as [Hl | Hl].
    + destruct (Hsub p (list_elem_of_here _ _) (eq_sym Hl)) as (d2 & Rp & Hp).
      exists (d1 `max` d2). intros acc. simpl.
      rewrite bool_decide_eq_true_2 by done.
      rewrite (compute_first_rec_mono G d2 (d1 `max` d2) _ Rp) by (lia || done).
      simpl. destruct (Hd1 (acc ∪ Rp)) as [R HR]. exists R.
      eapply first_loop_mono; [|exact HR].
      intros s r. apply compute_first_rec_mono. lia.
    + exists d1. intros acc. simpl.
      rewrite bool_decide_eq_false_2 by done. apply Hd1.
Qed.

Lemma first_dom_terminates (G : Grammar) (s : string) :
  first_dom G s → ∃ d R, compute_first_rec G d s = Ret R.
Proof.
  induction 1 as [|c rest Hc|c rest Hc _ IH].
  - by exists 1, {[ "" ]}.
  - exists 1, {[ char c ]}. simpl. by rewrite bool_decide_eq_true_2.
  - destruct (first_loop_total G c rest (productions G) IH) as [d Hd].
    destruct (Hd ∅) as [R HR]. exists (S d), R. simpl.
    by rewrite bool_decide_eq_false_2.
Qed.

Section Ranked.
Context (G : Grammar) (nl : string → bool) (rank : string → nat).
Hypothesis Hranked : no_left_recursion G nl rank = true.

Lemma ranked_production (p : Production) :
  p ∈ productions G →
  (forallb nl (chars (right p)) = true → nl (left p) = true)
  ∧ heads_ok G nl rank (left p) (right p) = true.
Proof.
  intros Hp. unfold no_left_recursion in Hranked.
  rewrite forallb_forall in Hranked.
  apply list_elem_of_In, Hranked, andb_true_iff in Hp as [Hcl Hh].
  split; [|done]. intros Hall. by rewrite Hall in Hcl.
Qed.

(** A symbol of rank below [n] can be put in front of [w] as soon as [w]
    is in the domain, or the symbol is outside [nl]. *)
Lemma first_dom_symbol (n : nat) :
  ∀ c w, (rank (char c) < n)%nat →
         (nl (char c) = true → first_dom G w) →
         first_dom G (String c w).
Proof.
  induction n as [|n IHn]; intros c w Hlt Hw; [lia|].
  destruct (decide (char c ∈ terminals G)) as [Hc | Hc];
    [by apply first_dom_terminal|].
  apply first_dom_expand; [done|]. intros p Hp Hl.
  destruct (ranked_production p Hp) as [Hcl Hheads]. rewrite Hl in Hcl, Hheads.
  assert (forallb nl (chars (right p)) = true → first_dom G w) as Hgw by auto.
  clear Hcl. revert Hheads Hgw. generalize (right p) as gamma.
  induction gamma as [|y gamma IHg]; intros Hheads Hgw; simpl.
  - by apply Hgw.
  - simpl in Hheads, Hgw. case_bool_decide as Hy; [by apply first_dom_terminal|].
    apply andb_true_iff in Hheads as [Hrk%bool_decide_eq_true Hrest].
    apply IHn; [lia|]. intros Hnl. rewrite Hnl in Hrest, Hgw.
    by apply IHg.
Qed.

Lemma first_dom_all (s : string) : first_dom G s.
Proof.
  induction s as [|c w IH]; [constructor|].
  by apply (first_dom_symbol (S (rank (char c)))); [lia|].
Qed.
End Ranked.

(** C2 (amended).  On a grammar without left recursion (certified by a
    set of symbols closed under the productions, hence holding every
    symbol that derives the empty string, and a rank that decreases from
    each left-hand side to every non-terminal reachable at the head of its
    right-hand sides through symbols of that set), [compute_first] returns
    a set for every sentence over the grammar's alphabets, given a large
    enough recursion budget. *)
Theorem compute_first_terminates (G : Grammar) (nl : string → bool)
    (rank : string → nat) (sentence : string) :
  no_left_recursion G nl rank = true →
  sentence_ok G sentence = true →
  ∃ fuel R, compute_first G fuel sentence = Ret R.
Proof.
  intros Hranked Hok.
  destruct (first_dom_terminates G sentence
              (first_dom_all G nl rank Hranked sentence)) as (d & R & HR).
  exists d, R. by apply compute_first_Ret.
Qed.

Lemma compute_first_terminates_witness :
  ∃ fuel R, compute_first g_expr fuel "YXT" = Ret R.
Proof.
  apply (compute_first_terminates g_expr
           (λ s, bool_decide (s ∈ ({[ "X"; "Y" ]} : gset string)))
           (λ s, if bool_decide (s = "E") then 1 else 0) "YXT").
  - vm_compute. reflexivity.
  - vm_compute. reflexivity.
Defined.

(** ** The recognizer as a transition system *)

Lemma analyze_cond_true (start input_string : string) :
  analyze_cond start input_string = true
  ↔ ∃ x srest a irest,
      start = String x srest ∧ input_string = String a irest.
Proof.
  unfold analyze_cond. destruct start as [|x s], input_string as [|a i]; simpl.
  - split; [done|]. by intros (? & ? & ? & ? & ? & ?).
  - split; [done|]. by intros (? & ? & ? & ? & ? & ?).
  - split; [done|]. by intros (? & ? & ? & ? & ? & ?).
  - split; [intros _; by eauto 6|done].
Qed.

Lemma analyze_cond_false (start input_string : string) :
  analyze_cond start input_string = false ↔ start = "" ∨ input_string = "".
Proof.
  destruct (analyze_cond start input_string) eqn:E.
  - apply analyze_cond_true in E as (x & s & a & i & -> & ->).
    split; [done|]. by intros [?|?].
  - split; [intros _|done].
    destruct start as [|x s]; [by left|].
    destruct input_string as [|a i]; [by right|].
    assert (analyze_cond (String x s) (String a i) = true) as E'
      by (apply analyze_cond_true; eauto 6).
    congruence.
Qed.

Lemma analyze_body_Ret self x s a i st :
  analyze_body self (String x s) (String a i) = Ret st
  ↔ step self (String x s, String a i) st.
Proof.
  simpl. split.
  - destruct (cells self !! (char x, char a)) as [rhs|] eqn:Hcell; [|done].
    destruct (rhs +:+ s) as [|y s'] eqn:Happ.
    + intros [= <-]. rewrite <- Happ. apply step_expand with (rhs := rhs); [done|].
      intros s'. by rewrite Happ.
    + case_bool_decide as Hy.
      * intros [= <-]. injection Hy as ->. by eapply step_match.
      * intros [= <-]. rewrite <- Happ. apply step_expand; [done|].
        intros s''. rewrite Happ. intros [= -> _]. by apply Hy.
  - inversion 1 as [???? rhs s' Hcell Happ|???? rhs Hcell Happ]; subst;
      rewrite Hcell.
    + rewrite Happ. by rewrite bool_decide_eq_true_2.
    + destruct (rhs +:+ s) as [|y s'] eqn:E; [done|].
      rewrite bool_decide_eq_false_2; [done|].
      intros [= ->]. by apply (Happ s').
Qed.

Lemma analyze_body_Raise self x s a i e :
  analyze_body self (String x s) (String a i) = Raise e
  ↔ e = SyntaxError ∧ cells self !! (char x, char a) = None.
Proof.
  simpl. destruct (cells self !! (char x, char a)) as [rhs|].
  - split; [|by intros [_ ?]].
    destruct (rhs +:+ s); [done|]. by case_bool_decide.
  - split; [by intros [= <-]|by intros [-> _]].
Qed.

Lemma analyze_body_no_timeout self x s a i :
  analyze_body self (String x s) (String a i) ≠ Timeout.
Proof.
  simpl. destruct (cells self !! (char x, char a)) as [rhs|]; [|done].
  destruct (rhs +:+ s); [done|]. by case_bool_decide.
Qed.

Section AnalyzeLoop.
Context (self : LL1Table).

Lemma analyze_loop_exit fuel s i :
  analyze_cond s i = false → analyze_loop self fuel s i = Ret (s, i).
Proof. intros H. destruct fuel; simpl; by rewrite H. Qed.

Lemma analyze_loop_S fuel s i :
  analyze_cond s i = true →
  analyze_loop self (S fuel) s i
  = (st ← analyze_body self s i; analyze_loop self fuel st.1 st.2).
Proof. intros H. simpl. by rewrite H. Qed.

Lemma step_cond c c' : step self c c' → analyze_cond c.1 c.2 = true.
Proof. inversion 1; subst; apply analyze_cond_true; simpl; eauto 6. Qed.

Lemma step_body c c' : step self c c' → analyze_body self c.1 c.2 = Ret c'.
Proof.
  intros H. pose proof (step_cond _ _ H) as Hc.
  apply analyze_cond_true in Hc as (x & s & a & i & Hs & Hi).
  destruct c as [s0 i0]. simpl in *. subst. by apply analyze_body_Ret.
Qed.

Lemma analyze_loop_Ret fuel s i st :
  analyze_loop self fuel s i = Ret st →
  rtc (step self) (s, i) st ∧ analyze_cond st.1 st.2 = false.
Proof.
  revert s i. induction fuel as [|f IH]; intros s i;
    destruct (analyze_cond s i) eqn:Hc.
  - simpl. by rewrite Hc.
  - rewrite analyze_loop_exit by done. by intros [= <-].
  - rewrite analyze_loop_S by done.
    intros ([s1 i1] & Hbody & Hloop)%bind_Ret.
    apply analyze_cond_true in Hc as (x & s' & a & i' & -> & ->).
    apply analyze_body_Ret in Hbody. apply IH in Hloop as [Hrtc Hexit].
    split; [|done]. by eapply rtc_l.
  - rewrite analyze_loop_exit by done. by intros [= <-].
Qed.

Lemma analyze_loop_Raise fuel s i e :
  analyze_loop self fuel s i = Raise e →
  e = SyntaxError ∧ no_prediction self s i.
Proof.
  revert s i. induction fuel as [|f IH]; intros s i;
    destruct (analyze_cond s i) eqn:Hc.
  - simpl. by rewrite Hc.
  - by rewrite analyze_loop_exit.
  - rewrite analyze_loop_S by done.
    apply analyze_cond_true in Hc as (x & s' & a & i' & -> & ->).
    intros [Hbody | ([s1 i1] & Hbody & Hloop)]%bind_Raise.
    + apply analyze_body_Raise in Hbody as [-> Hcell]. split; [done|].
      exists x, s', a, i'. by split.
    + apply analyze_body_Ret in Hbody. apply IH in Hloop as [-> Hno].
      split; [done|]. destruct Hno as (x' & s'' & a' & i'' & Hrtc & Hcell).
      exists x', s'', a', i''. split; [|done]. by eapply rtc_l.
  - by rewrite analyze_loop_exit.
Qed.

Lemma analyze_loop_reaches_exit c c' :
  rtc (step self) c c' → analyze_cond c'.1 c'.2 = false →
  ∃ fuel, analyze_loop self fuel c.1 c.2 = Ret c'.
Proof.
  induction 1 as [[s i]|c1 c2 c3 Hstep _ IH]; intros Hexit.
  - exists 0. by apply analyze_loop_exit.
  - destruct (IH Hexit) as [f Hf]. exists (S f).
    rewrite analyze_loop_S by (by eapply step_cond).
    by rewrite (step_body _ _ Hstep).
Qed.

Lemma analyze_loop_reaches_stuck c x s a i :
  rtc (step self) c (String x s, String a i) →
  cells self !! (char x, char a) = None →
  ∃ fuel, analyze_loop self fuel c.1 c.2 = Raise SyntaxError.
Proof.
  intros Hrtc Hcell. remember (String x s, String a i) as c' eqn:Hc'.
  induction Hrtc as [c|c1 c2 c3 Hstep _ IH]; subst.
  - exists 1. rewrite analyze_loop_S by (apply analyze_cond_true; eauto 6).
    cbn [fst snd].
    assert (analyze_body self (String x s) (String a i) = Raise SyntaxError)
      as -> by (by apply analyze_body_Raise).
    done.
  - destruct (IH eq_refl) as [f Hf]. exists (S f).
    rewrite analyze_loop_S by (by eapply step_cond).
    by rewrite (step_body _ _ Hstep).
Qed.

Lemma analyze_Raise fuel input_string start e :
  analyze self fuel input_string start = Raise e →
  e = SyntaxError
  ∧ (no_prediction self start input_string
     ∨ bad_remainder self start input_string).
Proof.
  unfold analyze. intros [Hloop | ([s i] & Hloop & Hend)]%bind_Raise.
  - apply analyze_loop_Raise in Hloop as [-> ?]. auto.
  - simpl in Hend. case_bool_decide as Hi; [|done]. injection Hend as <-.
    apply analyze_loop_Ret in Hloop as [Hrtc Hexit%analyze_cond_false].
    split; [done|]. right. by exists s, i.
Qed.

Lemma analyze_Ret fuel input_string start t :
  analyze self fuel input_string start = Ret t →
  t = mkParseTree "" [] ∧ accepting_exit self start input_string.
Proof.
  unfold analyze. intros ([s i] & Hloop & Hend)%bind_Ret.
  simpl in Hend. case_bool_decide as Hi; [done|]. injection Hend as <-.
  subst i.
  apply analyze_loop_Ret in Hloop as [Hrtc Hexit%analyze_cond_false].
  simpl in Hexit. destruct Hexit as [-> | ?]; done.
Qed.
End AnalyzeLoop.

Lemma analyze_loop_cycle :
  diverges (λ fuel, analyze_loop table_cycle fuel "A" "a$").
Proof.
  intros fuel. induction fuel as [|f IH]; [done|].
  rewrite analyze_loop_S by done. exact IH.
Qed.

(** C6 (as stated, refuted).  [table_cycle] is a table that
    [LL1Table.__init__] builds, and on it [analyze] neither raises a
    syntax error nor returns success for the input ["a$"] and the start
    symbol ["A"]: the loop rewrites the stack into itself for ever. *)
Lemma analyze_neither_error_nor_success :
  LL1Table_init {[ "A" ]} {[ "a"; "$" ]} [ mkTableCell "A" "a" "A" ]
  = Ret table_cycle
  ∧ diverges (λ fuel, analyze table_cycle fuel "a$" "A").
Proof.
  split; [vm_compute; reflexivity|].
  intros fuel. unfold analyze. by rewrite analyze_loop_cycle.
Qed.

(** C6 (amended).  [analyze] raises a syntax error exactly when (a) some
    iteration of the loop finds no cell for its pair (top of stack, current
    input symbol) or (b) the loop exits with a remaining input other than
    the end marker alone; it returns success exactly when the loop exits
    with the end marker alone as remaining input; and in every other case
    the loop never exits, so that [analyze] neither raises nor returns. *)
Theorem analyze_outcomes (self : LL1Table) (input_string start : string) :
  ((∃ fuel, analyze self fuel input_string start = Raise SyntaxError)
   ↔ no_prediction self start input_string
     ∨ bad_remainder self start input_string)
  ∧ ((∃ fuel, analyze self fuel input_string start = Ret (mkParseTree "" []))
     ↔ accepting_exit self start input_string)
  ∧ (diverges (λ fuel, analyze self fuel input_string start)
     ↔ ¬ (no_prediction self start input_string
          ∨ bad_remainder self start input_string)
       ∧ ¬ accepting_exit self start input_string).
Proof.
  assert ((∃ fuel, analyze self fuel input_string start = Raise SyntaxError)
          ↔ no_prediction self start input_string
            ∨ bad_remainder self start input_string) as Herr.
  { split.
    - intros [fuel H]. by apply analyze_Raise in H as [_ ?].
    - intros [(x & s & a & i & Hrtc & Hcell) | (s & i & Hrtc & Hexit & Hi)].
      + destruct (analyze_loop_reaches_stuck self _ _ _ _ _ Hrtc Hcell)
          as [fuel Hloop].
        exists fuel. unfold analyze. simpl in Hloop. by rewrite Hloop.
      + destruct (analyze_loop_reaches_exit self _ _ Hrtc) as [fuel Hloop];
          [by apply analyze_cond_false|].
        exists fuel. unfold analyze. simpl in Hloop. rewrite Hloop. simpl.
        by rewrite bool_decide_eq_true_2. }
  assert ((∃ fuel, analyze self fuel input_string start
                   = Ret (mkParseTree "" []))
          ↔ accepting_exit self start input_string) as Hacc.
  { split.
    - intros [fuel H]. by apply analyze_Ret in H as [_ ?].
    - intros Hrtc.
      destruct (analyze_loop_reaches_exit self _ _ Hrtc) as [fuel Hloop];
        [done|].
      exists fuel. unfold analyze. simpl in Hloop. by rewrite Hloop. }
  split_and!; [done..|]. split.
  - intros Hdiv. split.
    + intros [fuel H]%Herr. by rewrite Hdiv in H.
    + intros [fuel H]%Hacc. by rewrite Hdiv in H.
  - intros [Hnerr Hnacc] fuel.
    destruct (analyze self fuel input_string start) as [t|e|] eqn:E; [| |done].
    + exfalso. apply Hnacc. by apply analyze_Ret in E as [_ ?].
    + exfalso. apply Hnerr. by apply analyze_Raise in E as [_ ?].
Qed.

(** ** Conflicts in table construction *)

Lemma place_all_app cs1 cs2 st :
  place_all (cs1 ++ cs2) st
  = match place_all cs1 st with
    | None => None
    | Some st' => place_all cs2 st'
    end.
Proof.
  revert st. induction cs1 as [|c cs1 IH]; intros st; simpl; [done|].
  destruct (place _ _ _ st); [apply IH|done].
Qed.

Lemma place_follow_all p ts st :
  place_follow p ts st = place_all (follow_cells p ts) st.
Proof.
  revert st. induction ts as [|t ts IH]; intros st; simpl; [done|].
  destruct (place _ _ _ st); [apply IH|done].
Qed.

Lemma place_first_all G fuel p ts cs st :
  first_cells G fuel p ts = Ret cs →
  place_first G fuel p ts st = Ret (place_all cs st).
Proof.
  revert cs st. induction ts as [|t ts IH]; intros cs st; simpl.
  - by intros [= <-].
  - intros (cs1 & Hcs1 & (cs2 & Hcs2 & [= <-])%bind_Ret)%bind_Ret.
    rewrite place_all_app. case_bool_decide as Ht.
    + apply bind_Ret in Hcs1 as (follow & -> & [= <-]). simpl.
      rewrite place_follow_all.
      destruct (place_all _ st) as [st'|]; [by apply IH|done].
    + injection Hcs1 as <-. simpl.
      destruct (place _ _ _ st) as [st'|]; [by apply IH|done].
Qed.

Lemma place_productions_all G fuel ps cs st :
  attempts_of G fuel ps = Ret cs →
  place_productions G fuel ps st = Ret (place_all cs st).
Proof.
  revert cs st. induction ps as [|p ps IH]; intros cs st; simpl.
  - by intros [= <-].
  - intros (cs1 & Hcs1 & (cs2 & Hcs2 & [= <-])%bind_Ret)%bind_Ret.
    apply bind_Ret in Hcs1 as (first & -> & Hfirst). simpl.
    rewrite (place_first_all _ _ _ _ _ _ Hfirst). simpl.
    rewrite place_all_app.
    destruct (place_all cs1 st) as [st'|]; [by apply IH|done].
Qed.

Lemma place_all_Some cs acc used :
  NoDup (cell_key <$> cs) →
  Forall (λ c, cell_key c ∉ used) cs →
  ∃ used', place_all cs (acc, used) = Some (acc ++ cs, used').
Proof.
  revert acc used. induction cs as [|c cs IH]; intros acc used Hnd Hfresh.
  - exists used. simpl. by rewrite app_nil_r.
  - rewrite fmap_cons in Hnd. apply NoDup_cons in Hnd as [Hc Hnd].
    apply Forall_cons in Hfresh as [Hcu Hfresh].
    simpl. unfold place. simpl.
    rewrite bool_decide_eq_false_2 by done.
    destruct (IH (acc ++ [mkTableCell (non_terminal c) (terminal c) (cell_right c)])
                 (used ∪ {[ cell_key c ]}) Hnd) as [used' Hused'].
    + apply Forall_forall. intros c' Hc'.
      rewrite Forall_forall in Hfresh.
      intros [?|Heq%elem_of_singleton]%elem_of_union; [by eapply Hfresh|].
      apply Hc. rewrite <- Heq. by apply list_elem_of_fmap_2.
    + exists used'. unfold cell_key in Hused'. rewrite Hused'. f_equal. f_equal.
      rewrite <- app_assoc. by destruct c.
Qed.

Lemma place_all_None cs acc used :
  ¬ (NoDup (cell_key <$> cs) ∧ Forall (λ c, cell_key c ∉ used) cs) →
  place_all cs (acc, used) = None.
Proof.
  revert acc used. induction cs as [|c cs IH]; intros acc used Hbad.
  - exfalso. apply Hbad. split; constructor.
  - simpl. unfold place. simpl. case_bool_decide as Hcu; [done|].
    apply IH. intros [Hnd Hfresh]. apply Hbad. split.
    + rewrite fmap_cons. apply NoDup_cons. split; [|done].
      intros (c' & Heq & Hc')%list_elem_of_fmap.
      rewrite Forall_forall in Hfresh. apply (Hfresh c' Hc').
      rewrite <- Heq. set_solver.
    + apply Forall_cons. split; [done|].
      eapply Forall_impl; [exact Hfresh|]. set_solver.
Qed.

(** C3 (as stated, refuted).  [g_twice] is accepted by [Grammar.__init__]
    and holds no two distinct productions (productions compare by value),
    yet [get_ll1_table] returns [None] on it: the second attempt at the
    cell [("A", "a")] comes from the same production as the first. *)
Lemma get_ll1_table_same_production :
  valid g_twice
  ∧ (∀ fuel, get_ll1_table g_twice (S fuel) = Ret None)
  ∧ ¬ (∃ p1 p2, p1 ∈ productions g_twice ∧ p2 ∈ productions g_twice
                ∧ p1 ≠ p2).
Proof.
  split_and!.
  - vm_compute. reflexivity.
  - intros fuel. vm_compute. reflexivity.
  - intros (p1 & p2 & H1 & H2 & Hne). apply Hne.
    unfold g_twice in H1, H2. simpl in H1, H2.
    apply elem_of_cons in H1 as [-> | H1];
      [|apply list_elem_of_singleton in H1 as ->];
      (apply elem_of_cons in H2 as [-> | H2];
       [|apply list_elem_of_singleton in H2 as ->]); done.
Qed.

(** C3 (amended).  When the FIRST and FOLLOW computations that table
    construction needs all return, [get_ll1_table] returns [None] exactly
    when two of its attempts to place a cell, taken over the whole run,
    have the same (non-terminal, terminal) key, whichever productions they
    come from: two different productions, one production listed twice, or
    one production reaching the key through FIRST and through FOLLOW.
    Otherwise it hands all attempted cells to [LL1Table.__init__]. *)
Theorem get_ll1_table_conflict (G : Grammar) (fuel : nat)
    (cs : list TableCell) :
  attempts G fuel = Ret cs →
  (get_ll1_table G fuel = Ret None ↔ ¬ NoDup (cell_key <$> cs))
  ∧ (NoDup (cell_key <$> cs) →
     get_ll1_table G fuel
     = (t ← LL1Table_init (non_terminals G) (terminals G ∪ {[ "$" ]}) cs;
        Ret (Some t))).
Proof.
  intros Hcs. unfold get_ll1_table.
  rewrite (place_productions_all _ _ _ _ _ Hcs). simpl.
  destruct (decide (NoDup (cell_key <$> cs))) as [Hnd | Hnd].
  - destruct (place_all_Some cs [] ∅ Hnd) as [used' ->].
    { apply Forall_forall. set_solver. }
    simpl. split; [|done]. split; [|done].
    by destruct (LL1Table_init _ _ cs).
  - rewrite place_all_None by (by intros [? _]). by split.
Qed.

Lemma get_ll1_table_conflict_witness :
  (get_ll1_table g_twice 1 = Ret None
   ↔ ¬ NoDup (cell_key <$> [ mkTableCell "A" "a" "a"; mkTableCell "A" "a" "a" ]))
  ∧ (NoDup (cell_key <$> [ mkTableCell "A" "a" "a"; mkTableCell "A" "a" "a" ]) →
     get_ll1_table g_twice 1
     = (t ← LL1Table_init (non_terminals g_twice)
              (terminals g_twice ∪ {[ "$" ]})
              [ mkTableCell "A" "a" "a"; mkTableCell "A" "a" "a" ];
        Ret (Some t))).
Proof.
  apply (get_ll1_table_conflict g_twice 1
           [ mkTableCell "A" "a" "a"; mkTableCell "A" "a" "a" ]).
  vm_compute. reflexivity.
Defined.


(** * Further properties *)

#[local] Set Warnings "-clear-no-such-hyp".
Open Scope nat_scope.

(** ** Construction of grammars and tables *)

Lemma chars_app (u v : string) : chars (u +:+ v) = chars u ++ chars v.
Proof. induction u as [|c u IH]; simpl; [done|]. by rewrite IH. Qed.

Lemma forallb_elem {A} (f : A → bool) (l : list A) :
  forallb f l = true ↔ ∀ x, x ∈ l → f x = true.
Proof.
  rewrite forallb_forall. split; intros H x Hx; apply H;
    by apply list_elem_of_In.
Qed.

Lemma production_ok_iff (T N : gset string) (p : Production) :
  production_ok T N p = true
  ↔ left p ∈ N ∧ ∀ s, s ∈ chars (right p) → s ∈ N ∨ s ∈ T.
Proof.
  unfold production_ok. rewrite andb_true_iff, bool_decide_eq_true, forallb_elem.
  split; intros [Hl Hr]; (split; [done|]); intros s Hs; specialize (Hr s Hs).
  - unfold symbol_ok in Hr.
    apply orb_true_iff in Hr as [?%bool_decide_eq_true|?%bool_decide_eq_true]; auto.
  - unfold symbol_ok. apply orb_true_iff.
    destruct Hr; [left|right]; by apply bool_decide_eq_true.
Qed.

(** X1.  [Grammar.__init__] accepts its arguments exactly when the
    alphabets are disjoint, the axiom is a non-terminal, every production
    has a non-terminal on its left and only symbols of the alphabets on its
    right; it then stores the four arguments unchanged, and in every other
    case it raises [ValueError]. *)
Theorem Grammar_init_accepts (T N : gset string) (ps : list Production)
    (ax : string) :
  (Grammar_init T N ps ax = Ret (mkGrammar T N ps ax)
   ↔ T ∩ N = ∅ ∧ ax ∈ N
     ∧ ∀ p, p ∈ ps → left p ∈ N ∧ ∀ s, s ∈ chars (right p) → s ∈ N ∨ s ∈ T)
  ∧ (Grammar_init T N ps ax = Ret (mkGrammar T N ps ax)
     ∨ Grammar_init T N ps ax = Raise ValueError).
Proof.
  unfold Grammar_init.
  case_bool_decide as Hd; [split; [|by right]; split; [done|by intros [? _]]|].
  case_bool_decide as Hax;
    [split; [|by right]; split; [done|by intros (_ & ? & _)]|].
  destruct (forallb (production_ok T N) ps) eqn:Hps.
  - split; [|by left]. split; [intros _|done].
    split_and!; [done..|]. intros p Hp. apply production_ok_iff.
    rewrite forallb_elem in Hps. by apply Hps.
  - split; [|by right]. split; [done|]. intros (_ & _ & Hall).
    apply forallb_false_elem in Hps as (p & Hp & Hbad).
    apply Hall, production_ok_iff in Hp. congruence.
Qed.

Lemma cells_dict_snoc (cs : list TableCell) (c : TableCell) :
  cells_dict (cs ++ [c]) = <[ cell_key c := cell_right c ]> (cells_dict cs).
Proof. unfold cells_dict. by rewrite foldl_app. Qed.

Lemma cells_dict_lookup (cs : list TableCell) (k : string * string) (r : string) :
  cells_dict cs !! k = Some r →
  ∃ c, c ∈ cs ∧ cell_key c = k ∧ cell_right c = r.
Proof.
  induction cs as [|c cs IH] using rev_ind; [done|].
  rewrite cells_dict_snoc. destruct (decide (cell_key c = k)) as [<- | Hne].
  - rewrite lookup_insert_eq. intros [= <-]. exists c.
    split_and!; [|done..]. apply elem_of_app. right. apply list_elem_of_here.
  - rewrite lookup_insert_ne by done. intros (c' & Hc' & ? & ?)%IH.
    exists c'. split_and!; [|done..]. apply elem_of_app. by left.
Qed.

Lemma cell_ok_iff (N T : gset string) (c : TableCell) :
  cell_ok N T c = true
  ↔ non_terminal c ∈ N ∧ terminal c ∈ T
    ∧ ∀ s, s ∈ chars (cell_right c) → s ∈ N ∨ s ∈ T.
Proof.
  unfold cell_ok.
  rewrite !andb_true_iff, !bool_decide_eq_true, forallb_elem.
  split.
  - intros [[HN HT] Hr]. split_and!; [done..|]. intros s Hs.
    apply Hr, orb_true_iff in Hs as [?%bool_decide_eq_true|?%bool_decide_eq_true]; auto.
  - intros (HN & HT & Hr). split_and!; [done..|]. intros s Hs.
    apply orb_true_iff. destruct (Hr s Hs); [left|right]; by apply bool_decide_eq_true.
Qed.

Lemma LL1Table_init_Ret (N T : gset string) (cs : list TableCell) t :
  LL1Table_init N T cs = Ret t
  ↔ T ∩ N = ∅ ∧ forallb (cell_ok N T) cs = true
    ∧ t = mkLL1Table T N (cells_dict cs).
Proof.
  unfold LL1Table_init. case_bool_decide as Hd; [split; [done|by intros [? _]]|].
  destruct (forallb (cell_ok N T) cs).
  - split; [by intros [= <-]|by intros (_ & _ & ->)].
  - split; [done|by intros (_ & ? & _)].
Qed.

(** X2.  A table built by [LL1Table.__init__] keeps the alphabets it was
    given, which are disjoint, and each of its entries comes from a cell of
    the collection: its key is a (non-terminal, terminal) pair of the
    declared alphabets and its right-hand side holds only symbols of these
    alphabets. *)
Theorem LL1Table_init_invariant (N T : gset string) (cs : list TableCell)
    (t : LL1Table) :
  LL1Table_init N T cs = Ret t →
  table_terminals t = T ∧ table_non_terminals t = N ∧ T ∩ N = ∅
  ∧ ∀ A a rhs, cells t !! (A, a) = Some rhs →
      mkTableCell A a rhs ∈ cs ∧ A ∈ N ∧ a ∈ T
      ∧ ∀ s, s ∈ chars rhs → s ∈ N ∨ s ∈ T.
Proof.
  intros (Hd & Hok & ->)%LL1Table_init_Ret. simpl. split_and!; [done..|].
  intros A a rhs (c & Hc & Hk & Hr)%cells_dict_lookup.
  rewrite forallb_elem in Hok. pose proof (Hok c Hc) as Hcok.
  apply cell_ok_iff in Hcok as (HN & HT & Hsym).
  destruct c as [A' a' r']. unfold cell_key in Hk. simpl in *.
  injection Hk as -> ->. subst r'. by split_and!.
Qed.

Lemma LL1Table_init_invariant_witness :
  table_terminals table_cycle = {[ "a"; "$" ]}
  ∧ table_non_terminals table_cycle = {[ "A" ]}
  ∧ ({[ "a"; "$" ]} : gset string) ∩ {[ "A" ]} = ∅
  ∧ ∀ A a rhs, cells table_cycle !! (A, a) = Some rhs →
      mkTableCell A a rhs ∈ [ mkTableCell "A" "a" "A" ]
      ∧ A ∈ ({[ "A" ]} : gset string) ∧ a ∈ ({[ "a"; "$" ]} : gset string)
      ∧ ∀ s, s ∈ chars rhs
             → s ∈ ({[ "A" ]} : gset string) ∨ s ∈ ({[ "a"; "$" ]} : gset string).
Proof.
  apply (LL1Table_init_invariant {[ "A" ]} {[ "a"; "$" ]}
           [ mkTableCell "A" "a" "A" ] table_cycle).
  vm_compute. reflexivity.
Defined.

(** X3.  Adding a cell with [add_cell] to a table built by
    [LL1Table.__init__] gives the table that [LL1Table.__init__] builds
    from the collection extended by that cell, provided the cell's key is
    free and the cell passes the alphabet checks (which [add_cell] itself
    does not run). *)
Theorem add_cell_after_init (N T : gset string) (cs : list TableCell)
    (t : LL1Table) (c : TableCell) :
  LL1Table_init N T cs = Ret t →
  cell_ok N T c = true →
  cells t !! cell_key c = None →
  (add_cell t c).2 = Ret ()
  ∧ LL1Table_init N T (cs ++ [c]) = Ret (add_cell t c).1.
Proof.
  intros (Hd & Hok & ->)%LL1Table_init_Ret Hc Hfree. simpl in Hfree.
  unfold add_cell. simpl. rewrite Hfree.
  rewrite bool_decide_eq_false_2 by (by intros [? ?]). simpl.
  split; [done|]. apply LL1Table_init_Ret. split_and!; [done| |].
  - rewrite forallb_app, Hok. simpl. by rewrite Hc.
  - by rewrite cells_dict_snoc.
Qed.

Lemma add_cell_after_init_witness :
  (add_cell table_cycle (mkTableCell "A" "$" "")).2 = Ret ()
  ∧ LL1Table_init {[ "A" ]} {[ "a"; "$" ]}
      ([ mkTableCell "A" "a" "A" ] ++ [ mkTableCell "A" "$" "" ])
    = Ret (add_cell table_cycle (mkTableCell "A" "$" "")).1.
Proof.
  apply (add_cell_after_init {[ "A" ]} {[ "a"; "$" ]}
           [ mkTableCell "A" "a" "A" ] table_cycle (mkTableCell "A" "$" "")).
  - vm_compute. reflexivity.
  - vm_compute. reflexivity.
  - vm_compute. reflexivity.
Defined.

(** ** What a FIRST set holds *)

Lemma compute_first_rec_range (G : Grammar) (d : nat) (s : string) R x :
  compute_first_rec G d s = Ret R → x ∈ R →
  x = "" ∨ (x ∈ terminals G ∧ ∃ c, x = char c).
Proof.
  revert s R. induction d as [|d IH]; intros s R; simpl; [done|].
  destruct s as [|c rest].
  - intros [= <-] ->%elem_of_singleton. by left.
  - case_bool_decide as Hc.
    + intros [= <-] ->%elem_of_singleton. right. eauto.
    + intros [_ Hin]%first_loop_Ret_inv Hx. apply Hin in Hx.
      destruct Hx as [Hx | (p & Rp & _ & _ & HRp & Hx)]; [set_solver|].
      by eapply IH.
Qed.



Lemma string_app_cons c (u v : string) : String c u +:+ v = String c (u +:+ v).
Proof. reflexivity. Qed.

Lemma string_app_assoc (u v w : string) : (u +:+ v) +:+ w = u +:+ (v +:+ w).
Proof.
  induction u as [|c u IH]; [done|]. rewrite !string_app_cons. by rewrite IH.
Qed.

Lemma string_app_nil_r (u : string) : u +:+ "" = u.
Proof.
  induction u as [|c u IH]; [done|]. rewrite string_app_cons. by rewrite IH.
Qed.

Lemma derives_trans (G : Grammar) (u v w : string) :
  derives G u v → derives G v w → derives G u w.
Proof.
  induction 1 as [|u0 v0 w0 p Hp _ IH]; [done|].
  intros Hw. apply derives_step; [done|]. by apply IH.
Qed.

Lemma derives_one (G : Grammar) (u v : string) (p : Production) :
  p ∈ productions G →
  derives G (u +:+ left p +:+ v) (u +:+ right p +:+ v).
Proof. intros Hp. apply derives_step; [done|]. apply derives_refl. Qed.

Lemma derives_context (G : Grammar) (x y u w : string) :
  derives G u w → derives G (x +:+ u +:+ y) (x +:+ w +:+ y).
Proof.
  induction 1 as [|u0 v0 w0 p Hp _ IH]; [apply derives_refl|].
  replace (x +:+ (u0 +:+ left p +:+ v0) +:+ y)
    with ((x +:+ u0) +:+ left p +:+ (v0 +:+ y))
    by (by rewrite !string_app_assoc).
  apply derives_step; [done|].
  replace ((x +:+ u0) +:+ right p +:+ (v0 +:+ y))
    with (x +:+ (u0 +:+ right p +:+ v0) +:+ y)
    by (by rewrite !string_app_assoc).
  exact IH.
Qed.

Lemma derives_head (G : Grammar) (c : ascii) (rest w : string)
    (p : Production) :
  p ∈ productions G → left p = char c →
  derives G (right p +:+ rest) w → derives G (String c rest) w.
Proof.
  intros Hp Hl Hd.
  change (String c rest) with ("" +:+ char c +:+ rest). rewrite <- Hl.
  by apply derives_step.
Qed.

Lemma compute_first_rec_sound (G : Grammar) (d : nat) (s : string) R x :
  compute_first_rec G d s = Ret R → x ∈ R →
  ∃ w, derives G s (x +:+ w) ∧ (x = "" → w = "").
Proof.
  revert s R. induction d as [|d IH]; intros s R; simpl; [done|].
  destruct s as [|c rest].
  - intros [= <-] ->%elem_of_singleton. exists "". split; [apply derives_refl|done].
  - case_bool_decide as Hc.
    + intros [= <-] ->%elem_of_singleton. exists rest.
      split; [apply derives_refl|done].
    + intros [_ Hin]%first_loop_Ret_inv Hx. apply Hin in Hx.
      destruct Hx as [Hx | (p & Rp & Hp & Hl & HRp & Hx)]; [set_solver|].
      destruct (IH _ _ HRp Hx) as (w & Hw & Hnil).
      exists w. split; [|done]. by eapply derives_head.
Qed.

(** X5.  [compute_first] is sound for derivation: every symbol of the set
    it returns for a sentence begins a string derivable from the sentence,
    and if the set holds the empty string then the sentence derives the
    empty string. *)
Theorem compute_first_sound (G : Grammar) (fuel : nat) (sentence : string)
    (R : gset string) :
  compute_first G fuel sentence = Ret R →
  (∀ x, x ∈ R → ∃ w, derives G sentence (x +:+ w))
  ∧ ("" ∈ R → derives G sentence "").
Proof.
  intros [_ Hrec]%compute_first_Ret. split.
  - intros x Hx. destruct (compute_first_rec_sound G _ _ _ _ Hrec Hx) as (w & ? & _).
    by exists w.
  - intros Hx. destruct (compute_first_rec_sound G _ _ _ _ Hrec Hx) as (w & Hw & Hnil).
    by rewrite (Hnil eq_refl) in Hw.
Qed.

Lemma compute_first_sound_witness :
  (∀ x, x ∈ ({[ ""; "+" ]} : gset string) → ∃ w, derives g_expr "X" (x +:+ w))
  ∧ ("" ∈ ({[ ""; "+" ]} : gset string) → derives g_expr "X" "").
Proof.
  apply (compute_first_sound g_expr 10 "X" {[ ""; "+" ]}).
  vm_compute. reflexivity.
Defined.

(** ** FIRST of a concatenation *)

Section FirstApp.
Context (G : Grammar).

Lemma first_cat_union run Ru R Ru' R' :
  first_cat run Ru R → first_cat run Ru' R' →
  first_cat run (Ru ∪ Ru') (R ∪ R').
Proof.
  intros [[Hn ->] | (He & Rs & HRs & ->)] [[Hn' ->] | (He' & Rs' & HRs' & ->)].
  - left. split; [set_solver|done].
  - right. split; [set_solver|]. exists Rs'. split; [done|]. set_solver.
  - right. split; [set_solver|]. exists Rs. split; [done|]. set_solver.
  - right. split; [set_solver|]. exists Rs. split; [done|].
    assert (Rs' = Rs) as -> by congruence. set_solver.
Qed.

Lemma first_cat_mono (d d' : nat) (s : string) Ru R :
  (d ≤ d')%nat →
  first_cat (compute_first_rec G d s) Ru R →
  first_cat (compute_first_rec G d' s) Ru R.
Proof.
  intros Hle [? | (He & Rs & HRs & ->)]; [by left|]. right. split; [done|].
  exists Rs. split; [|done]. by eapply compute_first_rec_mono.
Qed.

Lemma first_loop_app (d : nat) (c : ascii) (u s : string) :
  (∀ v R, compute_first_rec G d (v +:+ s) = Ret R →
          ∃ Rv, compute_first_rec G d v = Ret Rv
                ∧ first_cat (compute_first_rec G d s) Rv R) →
  ∀ ps acc accu R,
    first_cat (compute_first_rec G (S d) s) accu acc →
    first_loop (compute_first_rec G d) c (u +:+ s) ps acc = Ret R →
    ∃ Ru, first_loop (compute_first_rec G d) c u ps accu = Ret Ru
          ∧ first_cat (compute_first_rec G (S d) s) Ru R.
Proof.
  intros IHd. induction ps as [|p ps IH]; intros acc accu R Hacc; simpl.
  - intros [= <-]. by exists accu.
  - case_bool_decide as Hl; [|by apply IH].
    intros (Rp & HRp & Hloop)%bind_Ret.
    rewrite <- string_app_assoc in HRp.
    apply IHd in HRp as (Rup & -> & Hcat). simpl.
    eapply IH; [|exact Hloop].
    apply first_cat_union; [done|].
    eapply first_cat_mono; [|exact Hcat]. lia.
Qed.

Lemma compute_first_rec_app (d : nat) (u s : string) R :
  compute_first_rec G d (u +:+ s) = Ret R →
  ∃ Ru, compute_first_rec G d u = Ret Ru
        ∧ first_cat (compute_first_rec G d s) Ru R.
Proof.
  revert u R. induction d as [|d IH]; intros u R; [done|].
  destruct u as [|c u].
  - change ("" +:+ s) with s. intros HR. exists {[ "" ]}. split; [done|].
    right. split; [set_solver|]. exists R. split; [done|]. set_solver.
  - rewrite string_app_cons. simpl. case_bool_decide as Hc.
    + intros [= <-]. eexists. split; [done|]. left.
      split; [|done]. intros [=]%elem_of_singleton.
    + apply first_loop_app; [exact IH|]. left. split; [set_solver|done].
Qed.
End FirstApp.

(** X6.  FIRST of a concatenation: when [compute_first] returns [R] on
    [u + s], it also returns some [Ru] on the prefix [u]; if [Ru] lacks the
    empty string, [R] is [Ru] and [s] plays no part; otherwise
    [compute_first] returns some [Rs] on [s] as well, and [R] is [Ru]
    without the empty string, joined with [Rs]. *)
Theorem compute_first_app (G : Grammar) (fuel : nat) (u s : string)
    (R : gset string) :
  compute_first G fuel (u +:+ s) = Ret R →
  ∃ Ru, compute_first G fuel u = Ret Ru
        ∧ ((("" ∉ Ru) ∧ R = Ru)
           ∨ ("" ∈ Ru ∧ ∃ Rs, compute_first G fuel s = Ret Rs
                              ∧ R = (Ru ∖ {[ "" ]}) ∪ Rs)).
Proof.
  intros [Hok Hrec]%compute_first_Ret.
  rewrite sentence_ok_app in Hok. apply andb_true_iff in Hok as [Hu Hs].
  apply compute_first_rec_app in Hrec as (Ru & HRu & Hcat).
  exists Ru. split; [by apply compute_first_Ret|].
  destruct Hcat as [? | (He & Rs & HRs & ->)]; [by left|].
  right. split; [done|]. exists Rs. split; [|done]. by apply compute_first_Ret.
Qed.

Lemma compute_first_app_witness :
  ∃ Ru, compute_first g_expr 10 "Y" = Ret Ru
        ∧ ((("" ∉ Ru) ∧ ({[ "+"; "*" ]} : gset string) = Ru)
           ∨ ("" ∈ Ru ∧ ∃ Rs, compute_first g_expr 10 "+i" = Ret Rs
                              ∧ ({[ "+"; "*" ]} : gset string)
                                = (Ru ∖ {[ "" ]}) ∪ Rs)).
Proof.
  apply (compute_first_app g_expr 10 "Y" "+i" {[ "+"; "*" ]}).
  vm_compute. reflexivity.
Defined.

(** ** FIRST against derivation *)

Section FirstExact.
Context (G : Grammar).

Lemma erasable_app_2 (u t : string) :
  erasable G u → erasable G t → erasable G (u +:+ t).
Proof.
  induction 1 as [|c rest p Hc Hp Hl _ IH]; intros Ht; [done|].
  rewrite string_app_cons. eapply erasable_expand; [done..|].
  rewrite <- string_app_assoc. by apply IH.
Qed.

Lemma erasable_app_1 (z u t : string) :
  erasable G z → z = u +:+ t → erasable G u ∧ erasable G t.
Proof.
  intros Hz. revert u t. induction Hz as [|c rest p Hc Hp Hl Hz IH]; intros u t.
  - destruct u as [|c u]; [|done]. change ("" +:+ t) with t. intros <-. split; constructor.
  - destruct u as [|c' u].
    + change ("" +:+ t) with t. intros <-. split; [constructor|]. by eapply erasable_expand.
    + rewrite string_app_cons. intros [= <- ->].
      destruct (IH (right p +:+ u) t) as [Hu Ht];
        [by rewrite string_app_assoc|].
      split; [|done]. by eapply erasable_expand.
Qed.

Lemma starts_app_l (a : ascii) (u t : string) :
  starts G a u → starts G a (u +:+ t).
Proof.
  induction 1 as [rest Ha|c rest p Hc Hp Hl _ IH]; rewrite string_app_cons.
  - by apply starts_terminal.
  - eapply starts_expand; [done..|]. by rewrite <- string_app_assoc.
Qed.

Lemma starts_app_r (a : ascii) (u t : string) :
  erasable G u → starts G a t → starts G a (u +:+ t).
Proof.
  induction 1 as [|c rest p Hc Hp Hl _ IH]; intros Ht; [done|].
  rewrite string_app_cons. eapply starts_expand; [done..|].
  rewrite <- string_app_assoc. by apply IH.
Qed.

Lemma starts_app_inv (a : ascii) (z u t : string) :
  starts G a z → z = u +:+ t →
  starts G a u ∨ (erasable G u ∧ starts G a t).
Proof.
  intros Hz. revert u t.
  induction Hz as [rest Ha|c rest p Hc Hp Hl Hz IH]; intros u t.
  - destruct u as [|c' u].
    + change ("" +:+ t) with t. intros <-. right. split; [constructor|]. by apply starts_terminal.
    + rewrite string_app_cons. intros [= <- ->]. left. by apply starts_terminal.
  - destruct u as [|c' u].
    + change ("" +:+ t) with t. intros <-. right. split; [constructor|]. by eapply starts_expand.
    + rewrite string_app_cons. intros [= <- ->].
      destruct (IH (right p +:+ u) t) as [Hu | [Hu Ht]];
        [by rewrite string_app_assoc| |].
      * left. by eapply starts_expand.
      * right. split; [|done]. by eapply erasable_expand.
Qed.

Lemma erasable_first (s : string) :
  erasable G s → ∀ d R, compute_first_rec G d s = Ret R → "" ∈ R.
Proof.
  induction 1 as [|c rest p Hc Hp Hl _ IH]; intros [|d] R; simpl; try done.
  - intros [= <-]. set_solver.
  - rewrite bool_decide_eq_false_2 by done.
    intros [Hsub Hin]%first_loop_Ret_inv.
    destruct (Hsub p Hp Hl) as [Rp HRp]. apply Hin. right.
    exists p, Rp. split_and!; [done..|]. by eapply IH.
Qed.

Lemma starts_first (a : ascii) (s : string) :
  starts G a s → ∀ d R, compute_first_rec G d s = Ret R → char a ∈ R.
Proof.
  induction 1 as [rest Ha|c rest p Hc Hp Hl _ IH]; intros [|d] R; simpl;
    try done.
  - rewrite bool_decide_eq_true_2 by done. intros [= <-]. set_solver.
  - rewrite bool_decide_eq_false_2 by done.
    intros [Hsub Hin]%first_loop_Ret_inv.
    destruct (Hsub p Hp Hl) as [Rp HRp]. apply Hin. right.
    exists p, Rp. split_and!; [done..|]. by eapply IH.
Qed.
Hypothesis Hvalid : valid G.
Hypothesis Hsingle : single_lefts G = true.

Lemma production_left (p : Production) :
  p ∈ productions G → ∃ c, left p = char c ∧ char c ∉ terminals G.
Proof.
  intros Hp. unfold single_lefts in Hsingle. rewrite forallb_elem in Hsingle.
  pose proof (Hsingle p Hp) as Hlen. apply bool_decide_eq_true in Hlen.
  destruct (valid_inv G Hvalid) as (Hdisj & _ & Hps).
  rewrite forallb_elem in Hps. pose proof (Hps p Hp) as Hpok.
  apply production_ok_iff in Hpok as [HN _].
  destruct (left p) as [|c [|c' l]] eqn:Hl; [done| |done].
  exists c. split; [done|]. unfold char. set_solver.
Qed.

Lemma derives_erasable (s w : string) :
  derives G s w → erasable G w → erasable G s.
Proof.
  induction 1 as [|u v w p Hp _ IH]; intros Hw; [done|].
  specialize (IH Hw).
  destruct (erasable_app_1 _ u (right p +:+ v) IH eq_refl) as [Hu Hpv].
  destruct (production_left p Hp) as (c & Hl & Hc).
  apply erasable_app_2; [done|]. rewrite Hl.
  change (char c +:+ v) with (String c v). by eapply erasable_expand.
Qed.

Lemma derives_starts (a : ascii) (s w : string) :
  derives G s w → starts G a w → starts G a s.
Proof.
  induction 1 as [|u v w p Hp _ IH]; intros Hw; [done|].
  specialize (IH Hw).
  destruct (production_left p Hp) as (c & Hl & Hc). rewrite Hl.
  change (char c +:+ v) with (String c v).
  destruct (starts_app_inv a _ u (right p +:+ v) IH eq_refl) as [Hu | [Hu Hpv]].
  - by apply starts_app_l.
  - apply starts_app_r; [done|]. by eapply starts_expand.
Qed.

End FirstExact.

(** X7.  On a grammar accepted by [Grammar.__init__] whose left-hand sides
    are single characters, a set returned by [compute_first] is exactly the
    FIRST set of the sentence: it holds the empty string exactly when the
    sentence derives the empty string, and a symbol exactly when that
    symbol is a one-character terminal beginning some string derivable
    from the sentence. *)
Theorem compute_first_exact (G : Grammar) (fuel : nat) (sentence : string)
    (R : gset string) :
  valid G → single_lefts G = true →
  compute_first G fuel sentence = Ret R →
  ("" ∈ R ↔ derives G sentence "")
  ∧ ∀ x, x ≠ "" →
      (x ∈ R ↔ x ∈ terminals G ∧ String.length x = 1
                ∧ ∃ w, derives G sentence (x +:+ w)).
Proof.
  intros Hvalid Hsingle [_ Hrec]%compute_first_Ret. split.
  - split.
    + intros Hx.
      destruct (compute_first_rec_sound G _ _ _ _ Hrec Hx) as (w & Hw & Hnil).
      by rewrite (Hnil eq_refl) in Hw.
    + intros Hd. eapply erasable_first; [|exact Hrec].
      eapply (derives_erasable G Hvalid Hsingle); [done|constructor].
  - intros x Hx. split.
    + intros Hin.
      destruct (compute_first_rec_range G _ _ _ _ Hrec Hin) as [-> | [HT [c ->]]];
        [done|].
      split_and!; [done..|].
      destruct (compute_first_rec_sound G _ _ _ _ Hrec Hin) as (w & Hw & _).
      by exists w.
    + intros (HT & Hlen & w & Hw).
      destruct x as [|c [|c' x]]; [done| |done].
      eapply (starts_first G c); [|exact Hrec].
      eapply (derives_starts G Hvalid Hsingle); [done|].
      by apply starts_terminal.
Qed.

Lemma compute_first_exact_witness :
  ("" ∈ ({[ ""; "+" ]} : gset string) ↔ derives g_expr "X" "")
  ∧ ∀ x, x ≠ "" →
      (x ∈ ({[ ""; "+" ]} : gset string)
       ↔ x ∈ terminals g_expr ∧ String.length x = 1
         ∧ ∃ w, derives g_expr "X" (x +:+ w)).
Proof.
  apply (compute_first_exact g_expr 10 "X" {[ ""; "+" ]}).
  - vm_compute. reflexivity.
  - vm_compute. reflexivity.
  - vm_compute. reflexivity.
Defined.

(** ** What the recognizer accepts *)

Lemma step_consumes (self : LL1Table) (c c' : string * string) :
  step self c c' → c'.2 = c.2 ∨ ∃ a, c.2 = String a c'.2.
Proof. inversion 1; subst; simpl; eauto. Qed.

Lemma steps_suffix (self : LL1Table) (c c' : string * string) :
  rtc (step self) c c' → ∃ consumed, c.2 = consumed +:+ c'.2.
Proof.
  induction 1 as [c|c1 c2 c3 Hstep _ [consumed IH]]; [by exists ""|].
  destruct (step_consumes _ _ _ Hstep) as [Heq | [a Heq]].
  - exists consumed. by rewrite <- Heq.
  - exists (String a consumed). by rewrite Heq, IH.
Qed.

(** X8.  [analyze] returns only on an input that ends with the end marker
    ["$"]; in particular it raises [SyntaxError] on the empty input,
    whatever the table, the start symbol and the iteration budget. *)
Theorem analyze_needs_end_marker (self : LL1Table) (start : string) :
  (∀ fuel input_string t,
     analyze self fuel input_string start = Ret t →
     ∃ u, input_string = u +:+ "$")
  ∧ ∀ fuel, analyze self fuel "" start = Raise SyntaxError.
Proof.
  split.
  - intros fuel input_string t [_ Hacc]%analyze_Ret.
    by apply steps_suffix in Hacc.
  - intros fuel. unfold analyze.
    rewrite analyze_loop_exit by (apply analyze_cond_false; by right). done.
Qed.

Section AnalyzeSound.
Context (G : Grammar) (self : LL1Table).
Hypothesis Hcells : ∀ A a rhs,
  cells self !! (A, a) = Some rhs → mkProduction A rhs ∈ productions G.

Lemma step_derives (consumed : string) (c c' : string * string) :
  step self c c' →
  ∃ consumed',
    consumed +:+ c.2 = consumed' +:+ c'.2
    ∧ derives G (consumed +:+ c.1) (consumed' +:+ c'.1).
Proof.
  inversion 1 as [x s a i rhs s' Hcell Happ|x s a i rhs Hcell Hne]; subst; simpl.
  - exists (consumed +:+ char a). split.
    + by rewrite string_app_assoc.
    + rewrite string_app_assoc. change (char a +:+ s') with (String a s').
      rewrite <- Happ.
      apply (derives_one G consumed s (mkProduction (char x) rhs)).
      by apply Hcells in Hcell.
  - exists consumed. split; [done|].
    apply (derives_one G consumed s (mkProduction (char x) rhs)).
    by apply Hcells in Hcell.
Qed.

Lemma steps_derive (start : string) (consumed : string) (c c' : string * string) :
  rtc (step self) c c' →
  derives G start (consumed +:+ c.1) →
  ∃ consumed',
    consumed +:+ c.2 = consumed' +:+ c'.2
    ∧ derives G start (consumed' +:+ c'.1).
Proof.
  intros Hrtc. revert consumed.
  induction Hrtc as [c|c1 c2 c3 Hstep _ IH]; intros consumed Hd.
  - by exists consumed.
  - destruct (step_derives consumed _ _ Hstep) as (consumed1 & Heq & Hd1).
    destruct (IH consumed1) as (consumed2 & Heq2 & Hd2).
    { by eapply derives_trans. }
    exists consumed2. split; [congruence|done].
Qed.

Lemma analyze_derives (fuel : nat) (input_string start : string) t :
  analyze self fuel input_string start = Ret t →
  ∃ u, input_string = u +:+ "$" ∧ derives G start u.
Proof.
  intros [_ Hacc]%analyze_Ret.
  destruct (steps_derive start "" _ _ Hacc) as (u & Heq & Hd);
    [apply derives_refl|].
  simpl in Heq, Hd. exists u. split; [done|]. by rewrite string_app_nil_r in Hd.
Qed.
End AnalyzeSound.

(** ** The table that [get_ll1_table] returns *)

Section TableCells.
Context (G : Grammar) (fuel : nat).

Lemma place_first_Some p ts st st' :
  place_first G fuel p ts st = Ret (Some st') →
  ∃ cs, first_cells G fuel p ts = Ret cs ∧ place_all cs st = Some st'.
Proof.
  revert st. induction ts as [|t ts IH]; intros st; simpl.
  - intros [= <-]. by exists [].
  - case_bool_decide as Ht.
    + intros (follow & Hfollow & Hrest)%bind_Ret. rewrite Hfollow. simpl.
      rewrite place_follow_all in Hrest.
      destruct (place_all (follow_cells p (elements follow)) st) as [st1|] eqn:H1;
        [|done].
      apply IH in Hrest as (cs & -> & Hcs). simpl.
      eexists. split; [done|]. by rewrite place_all_app, H1.
    + destruct (place (left p) t (right p) st) as [st1|] eqn:H1; [|done].
      intros (cs & -> & Hcs)%IH. simpl.
      eexists. split; [done|]. simpl. by rewrite H1.
Qed.

Lemma place_productions_Some ps st st' :
  place_productions G fuel ps st = Ret (Some st') →
  ∃ cs, attempts_of G fuel ps = Ret cs ∧ place_all cs st = Some st'.
Proof.
  revert st. induction ps as [|p ps IH]; intros st; simpl.
  - intros [= <-]. by exists [].
  - intros (first & Hfirst & (r & Hr & Hrest)%bind_Ret)%bind_Ret.
    destruct r as [st1|]; [|done].
    apply place_first_Some in Hr as (cs1 & Hcs1 & Hp1).
    apply IH in Hrest as (cs2 & -> & Hp2).
    unfold production_cells. rewrite Hfirst. simpl. rewrite Hcs1. simpl.
    eexists. split; [done|]. by rewrite place_all_app, Hp1.
Qed.

Lemma place_all_Some_inv cs acc used st' :
  place_all cs (acc, used) = Some st' →
  NoDup (cell_key <$> cs) ∧ st'.1 = acc ++ cs.
Proof.
  intros Hsome.
  destruct (decide (NoDup (cell_key <$> cs)
                    ∧ Forall (λ c, cell_key c ∉ used) cs)) as [[Hnd Hfr] | Hbad].
  - destruct (place_all_Some cs acc used Hnd Hfr) as [used' Hused'].
    rewrite Hused' in Hsome. injection Hsome as <-. by split.
  - by rewrite place_all_None in Hsome.
Qed.

Lemma get_ll1_table_Some t :
  get_ll1_table G fuel = Ret (Some t) →
  ∃ cs, attempts G fuel = Ret cs ∧ NoDup (cell_key <$> cs)
        ∧ LL1Table_init (non_terminals G) (terminals G ∪ {[ "$" ]}) cs = Ret t.
Proof.
  unfold get_ll1_table. intros (r & Hr & Hinit)%bind_Ret.
  destruct r as [st|]; [|done].
  apply place_productions_Some in Hr as (cs & Hcs & Hplace).
  apply place_all_Some_inv in Hplace as [Hnd Heq]. simpl in Heq.
  rewrite Heq in Hinit. apply bind_Ret in Hinit as (t' & Ht' & [= <-]).
  by exists cs.
Qed.

(** The cell of production [p] under the symbol [a] was attempted. *)
Lemma first_cells_elem p ts cs c :
  first_cells G fuel p ts = Ret cs →
  c ∈ cs ↔
  ∃ x, x ∈ ts
       ∧ ((x ≠ "" ∧ c = mkTableCell (left p) x (right p))
          ∨ (x = "" ∧ ∃ Fo, compute_follow G fuel (left p) = Ret Fo
                           ∧ ∃ a, a ∈ Fo
                                  ∧ c = mkTableCell (left p) a (right p))).
Proof.
  revert cs. induction ts as [|t ts IH]; intros cs; simpl.
  - intros [= <-]. split; [by intros ?%elem_of_nil|].
    by intros (x & ?%elem_of_nil & _).
  - intros (cs1 & Hcs1 & (cs2 & Hcs2 & [= <-])%bind_Ret)%bind_Ret.
    rewrite elem_of_app, (IH _ Hcs2). clear IH. case_bool_decide as Ht.
    + subst t. apply bind_Ret in Hcs1 as (Fo & HFo & [= <-]).
      unfold follow_cells. rewrite list_elem_of_fmap. split.
      * intros [(a & -> & Ha) | (x & Hx & Hc)].
        -- exists "". split; [apply list_elem_of_here|]. right. split; [done|].
           exists Fo. split; [done|]. exists a. split; [|done].
           by apply elem_of_elements.
        -- exists x. split; [by apply list_elem_of_further|done].
      * intros (x & [-> | Hx]%elem_of_cons & Hc).
        -- destruct Hc as [[? _] | (_ & Fo' & HFo' & a & Ha & ->)]; [done|].
           left. exists a. split; [done|]. apply elem_of_elements. congruence.
        -- right. by exists x.
    + injection Hcs1 as <-. rewrite list_elem_of_singleton. split.
      * intros [-> | (x & Hx & Hc)].
        -- exists t. split; [apply list_elem_of_here|by left].
        -- exists x. split; [by apply list_elem_of_further|done].
      * intros (x & [-> | Hx]%elem_of_cons & Hc).
        -- destruct Hc as [[_ ->] | [? _]]; [by left|done].
        -- right. by exists x.
Qed.

Lemma attempts_of_elem ps cs c :
  attempts_of G fuel ps = Ret cs →
  c ∈ cs ↔
  ∃ p F x, p ∈ ps ∧ compute_first G fuel (right p) = Ret F ∧ x ∈ F
       ∧ ((x ≠ "" ∧ c = mkTableCell (left p) x (right p))
          ∨ (x = "" ∧ ∃ Fo, compute_follow G fuel (left p) = Ret Fo
                           ∧ ∃ a, a ∈ Fo
                                  ∧ c = mkTableCell (left p) a (right p))).
Proof.
  revert cs. induction ps as [|p ps IH]; intros cs; simpl.
  - intros [= <-]. split; [by intros ?%elem_of_nil|].
    by intros (p & F & x & ?%elem_of_nil & _).
  - intros (cs1 & Hcs1 & (cs2 & Hcs2 & [= <-])%bind_Ret)%bind_Ret.
    apply bind_Ret in Hcs1 as (F & HF & Hcs1).
    rewrite elem_of_app, (IH _ Hcs2), (first_cells_elem _ _ _ _ Hcs1). clear IH.
    split.
    + intros [(x & Hx%elem_of_elements & Hc) | (q & F' & x & Hq & HF' & Hx & Hc)].
      * exists p, F, x. split_and!; [apply list_elem_of_here|done..].
      * exists q, F', x. split_and!; [by apply list_elem_of_further|done..].
    + intros (q & F' & x & [-> | Hq]%elem_of_cons & HF' & Hx & Hc).
      * left. exists x. split; [|done]. apply elem_of_elements. congruence.
      * right. by exists q, F', x.
Qed.
End TableCells.

Lemma cells_dict_NoDup (cs : list TableCell) (c : TableCell) :
  NoDup (cell_key <$> cs) → c ∈ cs →
  cells_dict cs !! cell_key c = Some (cell_right c).
Proof.
  intros Hnd (l1 & l2 & ->)%list_elem_of_split.
  apply cells_dict_last.
  rewrite fmap_app, fmap_cons in Hnd.
  apply NoDup_app in Hnd as (_ & _ & Hnd). apply NoDup_cons in Hnd as [Hc _].
  apply Forall_forall. intros c' Hc' Heq. apply Hc. rewrite <- Heq.
  by apply list_elem_of_fmap_2.
Qed.

(** X9.  When [get_ll1_table] returns a table, the table carries the
    grammar's non-terminals and its terminals extended with ["$"], and it
    maps the key [(A, a)] to [rhs] exactly when [A -> rhs] is a production
    of the grammar and either [a] is a symbol of FIRST([rhs]) other than
    the empty string, or FIRST([rhs]) holds the empty string and [a] is in
    FOLLOW([A]) as [compute_follow] computes it. *)
Theorem get_ll1_table_cells (G : Grammar) (fuel : nat) (t : LL1Table) :
  get_ll1_table G fuel = Ret (Some t) →
  table_non_terminals t = non_terminals G
  ∧ table_terminals t = terminals G ∪ {[ "$" ]}
  ∧ ∀ A a rhs,
      cells t !! (A, a) = Some rhs
      ↔ mkProduction A rhs ∈ productions G
        ∧ ∃ F, compute_first G fuel rhs = Ret F
               ∧ ((a ≠ "" ∧ a ∈ F)
                  ∨ ("" ∈ F ∧ ∃ Fo, compute_follow G fuel A = Ret Fo
                                    ∧ a ∈ Fo)).
Proof.
  intros (cs & Hcs & Hnd & (_ & _ & ->)%LL1Table_init_Ret)%get_ll1_table_Some.
  simpl. split_and!; [done..|]. intros A a rhs. split.
  - intros (c & Hc & Hk & Hr)%cells_dict_lookup.
    apply (attempts_of_elem _ _ _ _ _ Hcs) in Hc
      as (p & F & x & Hp & HF & Hx & Hc).
    destruct p as [l r]. simpl in *.
    destruct Hc as [[Hne ->] | (-> & Fo & HFo & a' & Ha' & ->)];
      unfold cell_key in Hk; simpl in *; injection Hk as -> ->; subst rhs.
    + split; [done|]. exists F. split; [done|]. by left.
    + split; [done|]. exists F. split; [done|]. right. split; [done|].
      by exists Fo.
  - intros (Hp & F & HF & Hc).
    assert (mkTableCell A a rhs ∈ cs) as Hin.
    { apply (attempts_of_elem _ _ _ _ _ Hcs).
      destruct Hc as [[Hne Ha] | (He & Fo & HFo & Ha)].
      - exists (mkProduction A rhs), F, a. split_and!; [done..|]. by left.
      - exists (mkProduction A rhs), F, "". split_and!; [done..|]. right.
        split; [done|]. exists Fo. split; [done|]. by exists a. }
    by apply (cells_dict_NoDup _ _ Hnd) in Hin.
Qed.

Lemma get_ll1_table_cells_witness :
  table_non_terminals (mkLL1Table {[ "a"; "b"; "$" ]} {[ "S" ]}
                         {[ ("S", "a") := "ab" ]})
  = non_terminals g_ab
  ∧ table_terminals (mkLL1Table {[ "a"; "b"; "$" ]} {[ "S" ]}
                       {[ ("S", "a") := "ab" ]})
    = terminals g_ab ∪ {[ "$" ]}
  ∧ ∀ A a rhs,
      cells (mkLL1Table {[ "a"; "b"; "$" ]} {[ "S" ]}
               {[ ("S", "a") := "ab" ]}) !! (A, a) = Some rhs
      ↔ mkProduction A rhs ∈ productions g_ab
        ∧ ∃ F, compute_first g_ab 5 rhs = Ret F
               ∧ ((a ≠ "" ∧ a ∈ F)
                  ∨ ("" ∈ F ∧ ∃ Fo, compute_follow g_ab 5 A = Ret Fo
                                    ∧ a ∈ Fo)).
Proof.
  apply (get_ll1_table_cells g_ab 5).
  vm_compute. reflexivity.
Defined.

(** X10.  With a table that [get_ll1_table] returned for a grammar,
    [analyze] accepts only what the grammar derives: an accepted input is
    some [u] followed by the end marker ["$"], and [u] is derivable from
    the start symbol. *)
Theorem analyze_accepts_derivable (G : Grammar) (fuel fuel' : nat)
    (t : LL1Table) (input_string start : string) (tree : ParseTree) :
  get_ll1_table G fuel = Ret (Some t) →
  analyze t fuel' input_string start = Ret tree →
  ∃ u, input_string = u +:+ "$" ∧ derives G start u.
Proof.
  intros (cs & Hcs & Hnd & (_ & _ & ->)%LL1Table_init_Ret)%get_ll1_table_Some.
  apply analyze_derives. simpl.
  intros A a rhs (c & Hc & Hk & Hr)%cells_dict_lookup.
  apply (attempts_of_elem _ _ _ _ _ Hcs) in Hc
    as (p & F & x & Hp & HF & Hx & Hc).
  destruct p as [l r]. simpl in *.
  destruct Hc as [[Hne ->] | (-> & Fo & HFo & a' & Ha' & ->)];
    unfold cell_key in Hk; simpl in *; injection Hk as -> ->; by subst rhs.
Qed.

Lemma analyze_accepts_derivable_witness :
  ∃ u, "i*i$" = u +:+ "$" ∧ derives g_expr "E" u.
Proof.
  apply (analyze_accepts_derivable g_expr 10 100
           (mkLL1Table (terminals g_expr ∪ {[ "$" ]}) (non_terminals g_expr)
              (cells_dict
                 [ mkTableCell "E" "(" "TX"; mkTableCell "E" "i" "TX";
                   mkTableCell "T" "(" "(E)"; mkTableCell "T" "i" "iY";
                   mkTableCell "X" "+" "+E"; mkTableCell "X" ")" "";
                   mkTableCell "X" "$" ""; mkTableCell "Y" "*" "*T";
                   mkTableCell "Y" "+" ""; mkTableCell "Y" ")" "";
                   mkTableCell "Y" "$" "" ]))
           "i*i$" "E" (mkParseTree "" [])).
  - vm_compute. reflexivity.
  - vm_compute. reflexivity.
Defined.

(** ** FOLLOW: the dictionary only grows *)

Lemma compute_follow_table (G : Grammar) (fuel : nat) (symbol : string) :
  compute_follow G fuel symbol
  = (f ← follow_table G fuel; getitem f symbol).
Proof.
  unfold compute_follow, follow_table. destruct (productions G) as [|p0 ps]; [done|].
  by destruct (getitem _ (left p0)).
Qed.

Lemma getitem_Ret {V} (d : gmap string V) (k : string) (v : V) :
  getitem d k = Ret v ↔ d !! k = Some v.
Proof.
  unfold getitem. destruct (d !! k); split; intros H; by simplify_eq.
Qed.

Lemma follows_le_refl f : follows_le f f.
Proof. split; [done|]. intros k v v' H1 H2. by simplify_eq. Qed.

Lemma follows_le_trans f g h :
  follows_le f g → follows_le g h → follows_le f h.
Proof.
  intros [Hd1 H1] [Hd2 H2]. split; [congruence|].
  intros k v v'' Hf Hh.
  assert (is_Some (g !! k)) as [v' Hg].
  { apply elem_of_dom. rewrite <- Hd1. apply elem_of_dom. eauto. }
  etrans; [by eapply H1|by eapply H2].
Qed.

Lemma follows_le_antisym f g : follows_le f g → follows_le g f → f = g.
Proof.
  intros [Hd1 H1] [_ H2]. apply map_eq. intros k.
  destruct (f !! k) as [v|] eqn:Hf.
  - assert (is_Some (g !! k)) as [v' Hg].
    { apply elem_of_dom. rewrite <- Hd1. apply elem_of_dom. eauto. }
    rewrite Hg. f_equal. apply set_eq. intros x. split.
    + by apply (H1 k v v').
    + by apply (H2 k v' v).
  - symmetry. apply not_elem_of_dom. rewrite <- Hd1. by apply not_elem_of_dom.
Qed.

Lemma follows_le_insert f (s : string) (old X : gset string) :
  f !! s = Some old → follows_le f (<[ s := old ∪ X ]> f).
Proof.
  intros Hs. split.
  - rewrite dom_insert_L. apply elem_of_dom_2 in Hs. set_solver.
  - intros k v v' Hf. destruct (decide (s = k)) as [<- | Hne].
    + rewrite lookup_insert_eq. intros [= <-]. simplify_eq. set_solver.
    + rewrite lookup_insert_ne by done. intros ?. by simplify_eq.
Qed.

Lemma follows_in_insert G f (s : string) (v : gset string) :
  follows_in G f → (∀ x, x ∈ v → follow_symbol G x) →
  follows_in G (<[ s := v ]> f).
Proof.
  intros Hf Hv k w x. destruct (decide (s = k)) as [<- | Hne].
  - rewrite lookup_insert_eq. intros [= <-]. apply Hv.
  - rewrite lookup_insert_ne by done. apply Hf.
Qed.

Section FollowScan.
Context (G : Grammar) (fuel : nat).

(** One position of the loop over [p.right]. *)
Lemma follow_scan_cons (l : string) (c : ascii) (rest : string) f f' :
  follow_scan G fuel l (String c rest) f = Ret f' →
  ((char c ∉ non_terminals G) ∧ follow_scan G fuel l rest f = Ret f')
  ∨ (char c ∈ non_terminals G
     ∧ ∃ old X, f !! char c = Some old
         ∧ contribution G fuel l rest f X
         ∧ follow_scan G fuel l rest (<[ char c := old ∪ X ]> f) = Ret f').
Proof.
  simpl. intros H. case_bool_decide as Hc; [|by left]. right. split; [done|].
  case_bool_decide as Hrest.
  - apply bind_Ret in H as (old & Hold%getitem_Ret & H).
    apply bind_Ret in H as (fl & Hfl%getitem_Ret & H).
    exists old, fl. split_and!; [done| |done]. by left.
  - apply bind_Ret in H as (first & Hfirst & H).
    apply bind_Ret in H as (f1 & Hf1 & H).
    apply bind_Ret in H as (f2 & Hf2 & H).
    unfold union_into in Hf2.
    apply bind_Ret in Hf2 as (old1 & Hold1%getitem_Ret & [= <-]).
    case_bool_decide as He.
    + apply bind_Ret in Hf1 as (old & Hold%getitem_Ret & Hf1).
      apply bind_Ret in Hf1 as (fl & Hfl%getitem_Ret & [= <-]).
      rewrite lookup_insert_eq in Hold1. injection Hold1 as <-.
      rewrite insert_insert_eq in H.
      exists old, (fl ∪ first ∖ {[ "" ]}). split_and!; [done| |].
      * right. split; [done|]. exists first. split; [done|]. left.
        split; [done|]. by exists fl.
      * by rewrite union_assoc_L.
    + injection Hf1 as <-.
      exists old1, (first ∖ {[ "" ]}). split_and!; [done| |done].
      right. split; [done|]. exists first. split; [done|]. by right.
Qed.

Lemma contribution_in (l rest : string) f X :
  follows_in G f →
  contribution G fuel l rest f X → ∀ x, x ∈ X → follow_symbol G x.
Proof.
  intros Hf [[_ Hl] | (_ & first & Hfirst & Hc)] x; [by eapply Hf|].
  assert (x ∈ first ∖ {[ "" ]} → follow_symbol G x) as Hsub.
  { intros [Hx Hne]%elem_of_difference.
    apply compute_first_Ret in Hfirst as [_ Hrec].
    destruct (compute_first_rec_range G _ _ _ _ Hrec Hx) as [-> | [HT [c ->]]];
      [set_solver|by right]. }
  destruct Hc as [(_ & fl & Hl & ->) | (_ & ->)]; [|done].
  intros [Hx | Hx]%elem_of_union; [by eapply Hf|by apply Hsub].
Qed.

Lemma follow_scan_le (l suffix : string) f f' :
  follow_scan G fuel l suffix f = Ret f' → follows_le f f'.
Proof.
  revert f. induction suffix as [|c rest IH]; intros f.
  - intros [= <-]. apply follows_le_refl.
  - intros [[_ H] | (_ & old & X & Hold & _ & H)]%follow_scan_cons;
      [by apply IH|].
    eapply follows_le_trans; [by apply follows_le_insert|by apply IH].
Qed.

Lemma follow_scan_in (l suffix : string) f f' :
  follows_in G f →
  follow_scan G fuel l suffix f = Ret f' →
  follows_in G f'.
Proof.
  revert f. induction suffix as [|c rest IH]; intros f Hf.
  - by intros [= <-].
  - intros [[_ H] | (_ & old & X & Hold & HX & H)]%follow_scan_cons;
      [by eapply IH|].
    eapply IH; [|exact H]. apply follows_in_insert; [done|].
    intros x [Hx | Hx]%elem_of_union; [by eapply Hf|by eapply contribution_in].
Qed.

Lemma follow_pass_le (ps : list Production) f f' :
  follow_pass G fuel ps f = Ret f' → follows_le f f'.
Proof.
  revert f. induction ps as [|p ps IH]; intros f; simpl.
  - intros [= <-]. apply follows_le_refl.
  - intros (f1 & Hf1 & H)%bind_Ret.
    eapply follows_le_trans; [by eapply follow_scan_le|by apply IH].
Qed.

Lemma follow_pass_in (ps : list Production) f f' :
  follows_in G f →
  follow_pass G fuel ps f = Ret f' →
  follows_in G f'.
Proof.
  revert f. induction ps as [|p ps IH]; intros f Hf; simpl.
  - by intros [= <-].
  - intros (f1 & Hf1 & H)%bind_Ret.
    eapply IH; [|exact H]. by eapply follow_scan_in.
Qed.

Lemma follow_while_le (n : nat) f f' :
  follow_while G n fuel f f = Ret f' → follows_le f f'.
Proof.
  revert f. induction n as [|n IH]; intros f; simpl; [done|].
  intros (f1 & Hf1 & H)%bind_Ret. apply follow_pass_le in Hf1.
  case_bool_decide as Heq; [by injection H as <-|].
  eapply follows_le_trans; [done|by apply IH].
Qed.

Lemma follow_while_in (n : nat) f f' :
  follows_in G f →
  follow_while G n fuel f f = Ret f' →
  follows_in G f'.
Proof.
  revert f. induction n as [|n IH]; intros f Hf; simpl; [done|].
  intros (f1 & Hf1 & H)%bind_Ret. apply follow_pass_in in Hf1; [|done].
  case_bool_decide as Heq; [by injection H as <-|]. by eapply IH.
Qed.

Lemma follow_while_fix (n : nat) f f' :
  follow_while G n fuel f f = Ret f' →
  follow_pass G fuel (productions G) f' = Ret f'.
Proof.
  revert f. induction n as [|n IH]; intros f; simpl; [done|].
  intros (f1 & Hf1 & H)%bind_Ret.
  case_bool_decide as Heq; [|by eapply IH].
  injection H as <-. by rewrite Heq in Hf1 |- *.
Qed.
End FollowScan.

Lemma follow_table_Ret (G : Grammar) (fuel : nat) f :
  follow_table G fuel = Ret f →
  ∃ p0 ps, productions G = p0 :: ps
    ∧ left p0 ∈ non_terminals G
    ∧ dom f = non_terminals G
    ∧ follows_in G f
    ∧ (∃ v, f !! left p0 = Some v ∧ "$" ∈ v)
    ∧ follow_pass G fuel (productions G) f = Ret f.
Proof.
  unfold follow_table. destruct (productions G) as [|p0 ps] eqn:Hps; [done|].
  intros (seed & Hseed%getitem_Ret & Hwhile)%bind_Ret.
  apply lookup_gset_to_gmap_Some in Hseed as [Hl <-].
  set (f0 := <[ left p0 := ∅ ∪ {[ "$" ]} ]> (gset_to_gmap ∅ (non_terminals G)))
    in Hwhile.
  assert (dom f0 = non_terminals G) as Hdom0.
  { unfold f0. rewrite dom_insert_L, dom_gset_to_gmap. set_solver. }
  assert (follows_in G f0) as Hin0.
  { unfold f0. apply follows_in_insert.
    - intros k v x [_ <-]%lookup_gset_to_gmap_Some. set_solver.
    - intros x Hx. left. set_solver. }
  pose proof (follow_while_le _ _ _ _ _ Hwhile) as [Hdom Hle].
  exists p0, ps. split_and!; [done|done|congruence| | |].
  - by eapply follow_while_in.
  - assert (is_Some (f !! left p0)) as [v Hv].
    { apply elem_of_dom. rewrite <- Hdom, Hdom0. done. }
    exists v. split; [done|].
    apply (Hle (left p0) (∅ ∪ {[ "$" ]}) v); [|done|set_solver].
    unfold f0. apply lookup_insert_eq.
  - rewrite <- Hps. by eapply follow_while_fix.
Qed.



(** X12.  Whenever [compute_follow] returns for the left-hand side of the
    first production, the returned set holds the end marker ["$"]; so it
    does for the axiom when the axiom is that left-hand side. *)
Theorem compute_follow_first_left (G : Grammar) (fuel : nat)
    (p0 : Production) (ps : list Production) (R : gset string) :
  productions G = p0 :: ps →
  compute_follow G fuel (left p0) = Ret R →
  "$" ∈ R.
Proof.
  intros Hps. rewrite compute_follow_table.
  intros (f & Hf & HR%getitem_Ret)%bind_Ret.
  apply follow_table_Ret in Hf
    as (p0' & ps' & Hps' & _ & _ & _ & (v & Hv & Hd) & _).
  rewrite Hps in Hps'. injection Hps' as <- <-. congruence.
Qed.

Lemma compute_follow_first_left_witness : "$" ∈ ({[ "$"; ")" ]} : gset string).
Proof.
  apply (compute_follow_first_left g_expr 10 (mkProduction "E" "TX")
           [ mkProduction "X" "+E"; mkProduction "X" "";
             mkProduction "T" "iY"; mkProduction "T" "(E)";
             mkProduction "Y" "*T"; mkProduction "Y" "" ]
           {[ "$"; ")" ]}).
  - reflexivity.
  - vm_compute. reflexivity.
Defined.

(** ** FOLLOW: the returned sets are closed under the FOLLOW rules *)

Section FollowFix.
Context (G : Grammar) (fuel : nat).

Lemma follow_scan_fix (l suffix : string) f0 f1 f2 :
  follow_scan G fuel l suffix f1 = Ret f2 →
  follows_le f0 f1 → follows_le f2 f0 →
  ∀ alpha c beta,
    suffix = alpha +:+ String c beta → char c ∈ non_terminals G →
    ∃ old X, f0 !! char c = Some old
             ∧ contribution G fuel l beta f0 X ∧ X ⊆ old.
Proof.
  revert f1. induction suffix as [|c0 rest IH]; intros f1 Hscan H01 H20.
  - intros [|a alpha] c beta; [done|by rewrite string_app_cons].
  - apply follow_scan_cons in Hscan
      as [[Hc0 Hscan] | (Hc0 & old & X & Hold & HX & Hscan)].
    + intros [|a alpha] c beta.
      * change ("" +:+ String c beta) with (String c beta).
        intros [= -> ->] Hc. done.
      * rewrite string_app_cons. intros [= -> ->]. by eapply IH.
    + pose proof (follows_le_insert f1 (char c0) old X Hold) as H11.
      pose proof (follow_scan_le _ _ _ _ _ _ Hscan) as H12.
      assert (f1 = f0) as ->.
      { apply follows_le_antisym; [|done].
        eauto using follows_le_trans. }
      assert (<[ char c0 := old ∪ X ]> f0 = f0) as Heq.
      { apply follows_le_antisym; [|done]. eauto using follows_le_trans. }
      intros [|a alpha] c beta.
      * change ("" +:+ String c beta) with (String c beta).
        intros [= -> ->] Hc. exists old, X. split_and!; [done..|].
        assert (<[ char c := old ∪ X ]> f0 !! char c = Some old) as Hl
          by (by rewrite Heq).
        rewrite lookup_insert_eq in Hl. injection Hl as Hl. set_solver.
      * rewrite string_app_cons. intros [= -> ->].
        eapply (IH (<[ char a := old ∪ X ]> f0)); [done| |done..].
        rewrite Heq. apply follows_le_refl.
Qed.

Lemma follow_pass_fix (ps : list Production) f0 f1 f2 :
  follow_pass G fuel ps f1 = Ret f2 →
  follows_le f0 f1 → follows_le f2 f0 →
  ∀ p alpha c beta,
    p ∈ ps → right p = alpha +:+ String c beta →
    char c ∈ non_terminals G →
    ∃ old X, f0 !! char c = Some old
             ∧ contribution G fuel (left p) beta f0 X ∧ X ⊆ old.
Proof.
  revert f1. induction ps as [|q ps IH]; intros f1; simpl.
  - intros _ _ _ p alpha c beta Hp. by apply elem_of_nil in Hp.
  - intros (f1' & Hscan & Hpass)%bind_Ret H01 H20 p alpha c beta Hp.
    pose proof (follow_scan_le _ _ _ _ _ _ Hscan) as H11.
    pose proof (follow_pass_le _ _ _ _ _ Hpass) as H12.
    apply elem_of_cons in Hp as [-> | Hp].
    + eapply follow_scan_fix; [exact Hscan|done|].
      eauto using follows_le_trans.
    + eapply IH; [exact Hpass| |done|done].
      eauto using follows_le_trans.
Qed.
End FollowFix.

(** X13.  The sets [compute_follow] returns are closed under the FOLLOW
    rules.  For a production [A -> alpha B beta] with [B] a non-terminal:
    if [beta] is empty, FOLLOW([A]) is included in FOLLOW([B]); otherwise
    [compute_first] returns on [beta], FIRST([beta]) without the empty
    string is included in FOLLOW([B]), and so is FOLLOW([A]) when
    FIRST([beta]) holds the empty string. *)
Theorem compute_follow_closed (G : Grammar) (fuel : nat) (A alpha beta : string)
    (b : ascii) (RA RB : gset string) :
  mkProduction A (alpha +:+ String b beta) ∈ productions G →
  compute_follow G fuel A = Ret RA →
  compute_follow G fuel (char b) = Ret RB →
  (beta = "" → RA ⊆ RB)
  ∧ (beta ≠ "" →
     ∃ F, compute_first G fuel beta = Ret F
          ∧ F ∖ {[ "" ]} ⊆ RB
          ∧ ("" ∈ F → RA ⊆ RB)).
Proof.
  intros Hp. rewrite !compute_follow_table.
  intros (f & Hf & HRA%getitem_Ret)%bind_Ret.
  intros (f' & Hf' & HRB%getitem_Ret)%bind_Ret.
  assert (f' = f) as -> by congruence.
  apply follow_table_Ret in Hf as (_ & _ & _ & _ & Hdom & _ & _ & Hfix).
  assert (char b ∈ non_terminals G) as Hb
    by (rewrite <- Hdom; by apply elem_of_dom_2 in HRB).
  destruct (follow_pass_fix G fuel _ f f f Hfix (follows_le_refl f)
              (follows_le_refl f) _ alpha b beta Hp eq_refl Hb)
    as (old & X & Hold & HX & Hsub).
  simpl in HX. assert (old = RB) as -> by congruence.
  destruct HX as [[-> HA] | (Hne & F & HF & HX)].
  - split; [intros _|done]. by assert (X = RA) as -> by congruence.
  - split; [done|intros _]. exists F. split; [done|].
    destruct HX as [(He & fl & Hfl & ->) | (He & ->)].
    + assert (fl = RA) as -> by congruence. set_solver.
    + split; [done|]. by intros.
Qed.

Lemma compute_follow_closed_witness :
  ("X" = "" → ({[ "$"; ")" ]} : gset string) ⊆ {[ "+"; "$"; ")" ]})
  ∧ ("X" ≠ "" →
     ∃ F, compute_first g_expr 10 "X" = Ret F
          ∧ F ∖ {[ "" ]} ⊆ ({[ "+"; "$"; ")" ]} : gset string)
          ∧ ("" ∈ F → ({[ "$"; ")" ]} : gset string) ⊆ {[ "+"; "$"; ")" ]})).
Proof.
  apply (compute_follow_closed g_expr 10 "E" "" "X" "T"%char
           {[ "$"; ")" ]} {[ "+"; "$"; ")" ]}).
  - apply list_elem_of_here.
  - vm_compute. reflexivity.
  - vm_compute. reflexivity.
Defined.

(** ** FOLLOW: a larger budget changes nothing *)

Lemma compute_first_mono (G : Grammar) (d d' : nat) (s : string) R :
  (d ≤ d')%nat → compute_first G d s = Ret R → compute_first G d' s = Ret R.
Proof.
  intros Hle [Hok Hrec]%compute_first_Ret. apply compute_first_Ret.
  split; [done|]. by eapply compute_first_rec_mono.
Qed.

Section FollowMono.
Context (G : Grammar) (d d' : nat).
Hypothesis Hle : (d ≤ d')%nat.

Lemma follow_scan_mono (l suffix : string) f f' :
  follow_scan G d l suffix f = Ret f' → follow_scan G d' l suffix f = Ret f'.
Proof.
  revert f. induction suffix as [|c rest IH]; intros f; simpl; [done|].
  case_bool_decide as Hc; [|by apply IH].
  case_bool_decide as Hrest.
  - intros (old & -> & H)%bind_Ret. simpl.
    apply bind_Ret in H as (fl & -> & H). simpl. by apply IH.
  - intros (first & Hfirst & H)%bind_Ret.
    rewrite (compute_first_mono G d d' _ _ Hle Hfirst). simpl.
    apply bind_Ret in H as (f1 & -> & H). simpl.
    apply bind_Ret in H as (f2 & -> & H). simpl. by apply IH.
Qed.

Lemma follow_pass_mono (ps : list Production) f f' :
  follow_pass G d ps f = Ret f' → follow_pass G d' ps f = Ret f'.
Proof.
  revert f. induction ps as [|p ps IH]; intros f; simpl; [done|].
  intros (f1 & Hf1 & H)%bind_Ret.
  rewrite (follow_scan_mono _ _ _ _ Hf1). simpl. by apply IH.
Qed.

Lemma follow_while_mono (n n' : nat) f g f' :
  (n ≤ n')%nat →
  follow_while G n d f g = Ret f' → follow_while G n' d' f g = Ret f'.
Proof.
  revert n' f g. induction n as [|n IH]; intros n' f g Hn; simpl; [done|].
  destruct n' as [|n']; [lia|]. simpl.
  intros (f1 & Hf1 & H)%bind_Ret.
  rewrite (follow_pass_mono _ _ _ Hf1). simpl.
  case_bool_decide; [done|]. apply IH; [lia|done].
Qed.
End FollowMono.

Lemma follow_table_mono (G : Grammar) (d d' : nat) f :
  (d ≤ d')%nat → follow_table G d = Ret f → follow_table G d' = Ret f.
Proof.
  intros Hle. unfold follow_table. destruct (productions G); [done|].
  intros (seed & -> & H)%bind_Ret. simpl. by eapply follow_while_mono.
Qed.

Lemma compute_follow_mono (G : Grammar) (d d' : nat) (s : string) R :
  (d ≤ d')%nat →
  compute_follow G d s = Ret R → compute_follow G d' s = Ret R.
Proof.
  intros Hle. rewrite !compute_follow_table.
  intros (f & Hf & HR)%bind_Ret.
  by rewrite (follow_table_mono G d d' f Hle Hf).
Qed.

(** ** FOLLOW: the loop ends *)

Lemma sum_list_with_le {A} (a b : A → nat) (l : list A) :
  (∀ x, x ∈ l → a x ≤ b x) → sum_list_with a l ≤ sum_list_with b l.
Proof.
  induction l as [|x l IH]; intros H; simpl; [done|].
  pose proof (H x (list_elem_of_here _ _)).
  assert (sum_list_with a l ≤ sum_list_with b l)
    by (apply IH; intros y Hy; apply H; by apply list_elem_of_further).
  lia.
Qed.

Lemma sum_list_with_eq {A} (a b : A → nat) (l : list A) :
  (∀ x, x ∈ l → a x ≤ b x) →
  sum_list_with b l ≤ sum_list_with a l →
  ∀ x, x ∈ l → a x = b x.
Proof.
  induction l as [|y l IH]; intros H Hsum x Hx; [by apply elem_of_nil in Hx|].
  simpl in Hsum.
  pose proof (H y (list_elem_of_here _ _)).
  assert (sum_list_with a l ≤ sum_list_with b l)
    by (apply sum_list_with_le; intros z Hz; apply H;
        by apply list_elem_of_further).
  apply elem_of_cons in Hx as [-> | Hx]; [lia|].
  apply IH; [|lia|done]. intros z Hz. apply H. by apply list_elem_of_further.
Qed.

Lemma sum_list_with_bound {A} (a : A → nat) (B : nat) (l : list A) :
  (∀ x, x ∈ l → a x ≤ B) → sum_list_with a l ≤ length l * B.
Proof.
  induction l as [|x l IH]; intros H; simpl; [done|].
  pose proof (H x (list_elem_of_here _ _)).
  assert (sum_list_with a l ≤ length l * B)
    by (apply IH; intros y Hy; apply H; by apply list_elem_of_further).
  lia.
Qed.

Lemma size_default_None (o : option (gset string)) :
  o = None → size (default ∅ o) = 0.
Proof. intros ->. apply size_empty. Qed.

Lemma follows_le_size (N : gset string) f g :
  follows_le f g → follows_size N f ≤ follows_size N g.
Proof.
  intros [Hdom Hle]. apply sum_list_with_le. intros k _.
  destruct (f !! k) as [v|] eqn:Hf; [|rewrite size_default_None by done; lia].
  assert (is_Some (g !! k)) as [v' Hg].
  { apply elem_of_dom. rewrite <- Hdom. apply elem_of_dom. eauto. }
  rewrite Hg. apply subseteq_size. by eapply Hle.
Qed.

Lemma follows_le_size_eq (N : gset string) f g :
  dom f = N → follows_le f g →
  follows_size N g ≤ follows_size N f → f = g.
Proof.
  intros HN [Hdom Hle] Hsize. apply follows_le_antisym; [done|].
  split; [done|]. intros k v' v Hg Hf.
  assert (size (default ∅ (f !! k)) = size (default ∅ (g !! k))) as Heq.
  { apply (sum_list_with_eq
             (λ k, size (default ∅ (f !! k)))
             (λ k, size (default ∅ (g !! k))) (elements N)).
    - intros j _. destruct (f !! j) as [w|] eqn:Hfj;
        [|rewrite size_default_None by done; lia].
      assert (is_Some (g !! j)) as [w' Hgj].
      { apply elem_of_dom. rewrite <- Hdom. apply elem_of_dom. eauto. }
      rewrite Hgj. apply subseteq_size. by eapply Hle.
    - done.
    - apply elem_of_elements. rewrite <- HN. by apply elem_of_dom_2 in Hf. }
  rewrite Hf, Hg in Heq.
  assert (v = v') as ->; [|done].
  apply set_subseteq_size_eq; [by eapply Hle|].
  change (size v' ≤ size v). change (size v = size v') in Heq. lia.
Qed.

Lemma follows_in_size (G : Grammar) (N : gset string) f :
  follows_in G f →
  follows_size N f ≤ length (elements N) * size (terminals G ∪ {[ "$" ]}).
Proof.
  intros Hin. apply sum_list_with_bound. intros k _.
  destruct (f !! k) as [v|] eqn:Hf; [|rewrite size_default_None by done; lia].
  apply subseteq_size. intros x Hx.
  destruct (Hin _ _ _ Hf Hx) as [-> | [HT _]]; set_solver.
Qed.

Section FollowTotal.
Context (G : Grammar).
Hypothesis Hfirst : ∀ beta,
  sentence_ok G beta = true → ∃ d F, compute_first G d beta = Ret F.

Lemma dom_insert_same (f : gmap string (gset string)) (k : string)
    (v : gset string) :
  k ∈ dom f → dom (<[ k := v ]> f) = dom f.
Proof. intros Hk. rewrite dom_insert_L. set_solver. Qed.

Lemma follow_scan_total (l suffix : string) :
  l ∈ non_terminals G → sentence_ok G suffix = true →
  ∃ d, ∀ f, dom f = non_terminals G →
            ∃ f', follow_scan G d l suffix f = Ret f'.
Proof.
  intros Hl. induction suffix as [|c rest IH]; intros Hok.
  - exists 0. intros f _. by exists f.
  - change (String c rest) with (char c +:+ rest) in Hok.
    rewrite sentence_ok_app in Hok. apply andb_true_iff in Hok as [_ Hrest].
    destruct (IH Hrest) as [d1 Hd1].
    destruct (Hfirst rest Hrest) as (d2 & F & HF).
    exists (d1 `max` d2). intros f Hdom. simpl.
    assert (∀ g, dom g = non_terminals G →
                 ∃ f', follow_scan G (d1 `max` d2) l rest g = Ret f') as Hnext.
    { intros g Hg. destruct (Hd1 g Hg) as [f' Hf']. exists f'.
      eapply follow_scan_mono; [|done]. lia. }
    case_bool_decide as Hc; [|by apply Hnext].
    assert (is_Some (f !! char c)) as [old Hold]
      by (apply elem_of_dom; by rewrite Hdom).
    assert (is_Some (f !! l)) as [fl Hfl]
      by (apply elem_of_dom; by rewrite Hdom).
    assert (char c ∈ dom f) as Hcd by (by rewrite Hdom).
    case_bool_decide as Hlast.
    + unfold getitem. rewrite Hold, Hfl. simpl. apply Hnext.
      by rewrite dom_insert_same.
    + rewrite (compute_first_mono G d2 (d1 `max` d2) rest F) by (lia || done).
      simpl. unfold union_into, getitem. case_bool_decide as He.
      * rewrite Hold, Hfl. simpl. rewrite lookup_insert_eq. simpl.
        apply Hnext. by rewrite !dom_insert_same by (by rewrite ?dom_insert_same).
      * simpl. rewrite Hold. simpl. apply Hnext. by rewrite dom_insert_same.
Qed.

Lemma follow_pass_total (ps : list Production) :
  (∀ p, p ∈ ps → left p ∈ non_terminals G ∧ sentence_ok G (right p) = true) →
  ∃ d, ∀ f, dom f = non_terminals G →
            ∃ f', follow_pass G d ps f = Ret f'.
Proof.
  induction ps as [|p ps IH]; intros Hps.
  - exists 0. intros f _. by exists f.
  - destruct IH as [d1 Hd1].
    { intros q Hq. apply Hps. by apply list_elem_of_further. }
    destruct (Hps p (list_elem_of_here _ _)) as [Hl Hr].
    destruct (follow_scan_total (left p) (right p) Hl Hr) as [d2 Hd2].
    exists (d1 `max` d2). intros f Hdom. simpl.
    destruct (Hd2 f Hdom) as [f1 Hf1].
    rewrite (follow_scan_mono G d2 (d1 `max` d2) ltac:(lia) _ _ _ _ Hf1). simpl.
    destruct (Hd1 f1) as [f' Hf'].
    { apply follow_scan_le in Hf1 as [<- _]. done. }
    exists f'. eapply follow_pass_mono; [|done]. lia.
Qed.

Lemma follow_while_total (d : nat) :
  (∀ f, dom f = non_terminals G →
        ∃ f', follow_pass G d (productions G) f = Ret f') →
  ∀ k f,
    dom f = non_terminals G → follows_in G f →
    length (elements (non_terminals G)) * size (terminals G ∪ {[ "$" ]})
    - follows_size (non_terminals G) f < k →
    ∃ n f', follow_while G n d f f = Ret f'.
Proof.
  intros Hpass. induction k as [|k IH]; intros f Hdom Hin Hk; [lia|].
  destruct (Hpass f Hdom) as [f1 Hf1].
  destruct (decide (f1 = f)) as [-> | Hne].
  - exists 1, f. simpl. rewrite Hf1. simpl. by rewrite bool_decide_eq_true_2.
  - pose proof (follow_pass_le _ _ _ _ _ Hf1) as Hle.
    pose proof (follow_pass_in _ _ _ _ _ Hin Hf1) as Hin1.
    assert (dom f1 = non_terminals G) as Hdom1
      by (destruct Hle as [<- _]; done).
    pose proof (follows_in_size G (non_terminals G) f1 Hin1) as Hb1.
    pose proof (follows_le_size (non_terminals G) f f1 Hle) as Hs.
    assert (follows_size (non_terminals G) f
            < follows_size (non_terminals G) f1) as Hlt.
    { destruct (decide (follows_size (non_terminals G) f1
                        ≤ follows_size (non_terminals G) f)) as [Hge|]; [|lia].
      exfalso. apply Hne. symmetry. by eapply follows_le_size_eq. }
    destruct (IH f1 Hdom1 Hin1) as (n & f' & Hf'); [lia|].
    exists (S n), f'. simpl. rewrite Hf1. simpl.
    by rewrite bool_decide_eq_false_2.
Qed.

Lemma follow_table_total :
  valid G → productions G ≠ [] → ∃ fuel f, follow_table G fuel = Ret f.
Proof.
  intros Hvalid Hne.
  destruct (valid_inv G Hvalid) as (_ & _ & Hps).
  rewrite forallb_elem in Hps.
  destruct (follow_pass_total (productions G)) as [d Hd].
  { intros p Hp. split; [|by apply valid_right_ok].
    by apply Hps, production_ok_iff in Hp as [? _]. }
  unfold follow_table. destruct (productions G) as [|p0 ps] eqn:Hprods; [done|].
  assert (left p0 ∈ non_terminals G) as Hl0.
  { specialize (Hps p0 (list_elem_of_here _ _)).
    by apply production_ok_iff in Hps as [? _]. }
  unfold getitem at 1.
  rewrite (proj2 (lookup_gset_to_gmap_Some _ _ _ _) (conj Hl0 eq_refl)).
  simpl.
  set (f0 := <[ left p0 := ∅ ∪ {[ "$" ]} ]> (gset_to_gmap ∅ (non_terminals G))).
  assert (dom f0 = non_terminals G) as Hdom0.
  { unfold f0. rewrite dom_insert_L, dom_gset_to_gmap. set_solver. }
  assert (follows_in G f0) as Hin0.
  { unfold f0. apply follows_in_insert.
    - intros k v x [_ <-]%lookup_gset_to_gmap_Some. set_solver.
    - intros x Hx. left. set_solver. }
  rewrite <- Hprods in Hd.
  destruct (follow_while_total d Hd _ f0 Hdom0 Hin0 (Nat.lt_succ_diag_r _))
    as (n & f' & Hf').
  exists (n `max` d), f'.
  eapply (follow_while_mono G d (n `max` d)); [lia| |exact Hf']. lia.
Qed.
End FollowTotal.

Lemma ranked_first_total (G : Grammar) (nl : string → bool)
    (rank : string → nat) :
  no_left_recursion G nl rank = true →
  ∀ beta, sentence_ok G beta = true →
          ∃ d F, compute_first G d beta = Ret F.
Proof.
  intros Hranked beta Hok.
  destruct (first_dom_terminates G beta
              (first_dom_all G nl rank Hranked beta)) as (d & F & HF).
  exists d, F. by apply compute_first_Ret.
Qed.

Lemma ranked_follow_total (G : Grammar) (nl : string → bool)
    (rank : string → nat) (symbol : string) :
  valid G → no_left_recursion G nl rank = true →
  productions G ≠ [] → symbol ∈ non_terminals G →
  ∃ fuel R, compute_follow G fuel symbol = Ret R.
Proof.
  intros Hvalid Hranked Hne Hsym.
  destruct (follow_table_total G (ranked_first_total G nl rank Hranked)
              Hvalid Hne) as (fuel & f & Hf).
  pose proof Hf as (_ & _ & _ & _ & Hdom & _)%follow_table_Ret.
  assert (is_Some (f !! symbol)) as [R HR]
    by (apply elem_of_dom; by rewrite Hdom).
  exists fuel, R. rewrite compute_follow_table, Hf. simpl.
  by apply getitem_Ret.
Qed.

(** X14.  On a grammar accepted by [Grammar.__init__] that has a
    production and no left recursion (certified as for FIRST),
    [compute_follow] returns a set for every declared non-terminal: the
    FIRST computations return and the loop stops after finitely many
    passes, each pass that does not stop adding a symbol to a set of
    bounded size. *)
Theorem compute_follow_terminates (G : Grammar) (nl : string → bool)
    (rank : string → nat) (symbol : string) :
  valid G → no_left_recursion G nl rank = true →
  productions G ≠ [] → symbol ∈ non_terminals G →
  ∃ fuel R, compute_follow G fuel symbol = Ret R.
Proof.
  intros Hvalid Hranked Hne Hsym.
  destruct (ranked_follow_total G nl rank symbol Hvalid Hranked Hne Hsym)
    as (fuel & R & HR).
  by exists fuel, R.
Qed.

Lemma compute_follow_terminates_witness :
  ∃ fuel R, compute_follow g_expr fuel "T" = Ret R.
Proof.
  apply (compute_follow_terminates g_expr
           (λ s, bool_decide (s ∈ ({[ "X"; "Y" ]} : gset string)))
           (λ s, if bool_decide (s = "E") then 1 else 0) "T").
  - vm_compute. reflexivity.
  - vm_compute. reflexivity.
  - discriminate.
  - vm_compute. reflexivity.
Defined.

(** ** Table construction returns *)

Lemma uniform_budget {A B} (run : A → nat → outcome B) (l : list A) :
  (∀ a d d' r, d ≤ d' → run a d = Ret r → run a d' = Ret r) →
  (∀ a, a ∈ l → ∃ d r, run a d = Ret r) →
  ∃ d, ∀ a, a ∈ l → ∃ r, run a d = Ret r.
Proof.
  intros Hmono. induction l as [|a l IH]; intros Hall.
  - exists 0. by intros a ?%elem_of_nil.
  - destruct IH as [d1 Hd1].
    { intros b Hb. apply Hall. by apply list_elem_of_further. }
    destruct (Hall a (list_elem_of_here _ _)) as (d2 & r & Hr).
    exists (d1 `max` d2). intros b [-> | Hb]%elem_of_cons.
    + exists r. eapply Hmono; [|done]. lia.
    + destruct (Hd1 b Hb) as [r' Hr']. exists r'. eapply Hmono; [|done]. lia.
Qed.

Section AttemptsTotal.
Context (G : Grammar) (fuel : nat).

Lemma first_cells_total (p : Production) (ts : list string) :
  (∃ Fo, compute_follow G fuel (left p) = Ret Fo) →
  ∃ cs, first_cells G fuel p ts = Ret cs.
Proof.
  intros [Fo HFo]. induction ts as [|t ts [cs IH]]; simpl; [by eexists|].
  rewrite IH. case_bool_decide; [rewrite HFo|]; simpl; by eexists.
Qed.

Lemma attempts_of_total (ps : list Production) :
  (∀ p, p ∈ ps → ∃ F, compute_first G fuel (right p) = Ret F) →
  (∀ p, p ∈ ps → ∃ Fo, compute_follow G fuel (left p) = Ret Fo) →
  ∃ cs, attempts_of G fuel ps = Ret cs.
Proof.
  induction ps as [|p ps IH]; intros Hfirst Hfollow; simpl; [by eexists|].
  destruct IH as [cs2 Hcs2].
  { intros q Hq. apply Hfirst. by apply list_elem_of_further. }
  { intros q Hq. apply Hfollow. by apply list_elem_of_further. }
  destruct (Hfirst p (list_elem_of_here _ _)) as [F HF].
  destruct (first_cells_total p (elements F)
              (Hfollow p (list_elem_of_here _ _))) as [cs1 Hcs1].
  unfold production_cells. rewrite HF. simpl. rewrite Hcs1. simpl.
  rewrite Hcs2. simpl. by eexists.
Qed.

(** The cells attempted on a valid grammar pass the checks of
    [LL1Table.__init__]. *)
Lemma attempts_cell_ok (cs : list TableCell) :
  valid G → attempts G fuel = Ret cs →
  forallb (cell_ok (non_terminals G) (terminals G ∪ {[ "$" ]})) cs = true.
Proof.
  intros Hvalid Hcs. apply forallb_elem. intros c Hc.
  apply (attempts_of_elem _ _ _ _ _ Hcs) in Hc
    as (p & F & x & Hp & HF & Hx & Hc).
  destruct (valid_inv G Hvalid) as (_ & _ & Hps).
  rewrite forallb_elem in Hps.
  apply Hps, production_ok_iff in Hp as [Hl Hr].
  assert (terminal c ∈ terminals G ∪ {[ "$" ]}
          ∧ non_terminal c = left p ∧ cell_right c = right p)
    as (Ht & Hn & Hrc).
  { destruct Hc as [[Hne ->] | (-> & Fo & HFo & a & Ha & ->)]; simpl.
    - split; [|done]. apply compute_first_Ret in HF as [_ Hrec].
      destruct (compute_first_rec_range G _ _ _ _ Hrec Hx) as [-> | [HT _]];
        [done|set_solver].
    - split; [|done]. rewrite compute_follow_table in HFo.
      apply bind_Ret in HFo as (f & Hf & HFo%getitem_Ret).
      apply follow_table_Ret in Hf as (_ & _ & _ & _ & _ & Hin & _).
      destruct (Hin _ _ _ HFo Ha) as [-> | [HT _]]; set_solver. }
  apply cell_ok_iff. rewrite Hn, Hrc. split_and!; [done..|].
  intros s Hs. destruct (Hr s Hs); [by left|right; set_solver].
Qed.
End AttemptsTotal.

Lemma ranked_attempts_total (G : Grammar) (nl : string → bool)
    (rank : string → nat) :
  valid G → no_left_recursion G nl rank = true →
  ∃ fuel cs, attempts G fuel = Ret cs.
Proof.
  intros Hvalid Hranked.
  destruct (valid_inv G Hvalid) as (_ & _ & Hps).
  rewrite forallb_elem in Hps.
  destruct (uniform_budget (λ p d, compute_first G d (right p))
              (productions G)) as [d1 Hd1].
  { intros p d d' r. apply compute_first_mono. }
  { intros p Hp. apply (ranked_first_total G nl rank Hranked).
    by apply valid_right_ok. }
  destruct (uniform_budget (λ p d, compute_follow G d (left p))
              (productions G)) as [d2 Hd2].
  { intros p d d' r. apply compute_follow_mono. }
  { intros p Hp. apply (ranked_follow_total G nl rank); [done..| |].
    - intros Hnil. rewrite Hnil in Hp. by apply elem_of_nil in Hp.
    - by apply Hps, production_ok_iff in Hp as [? _]. }
  exists (d1 `max` d2). apply attempts_of_total.
  - intros p Hp. destruct (Hd1 p Hp) as [F HF]. exists F.
    eapply compute_first_mono; [|done]. lia.
  - intros p Hp. destruct (Hd2 p Hp) as [Fo HFo]. exists Fo.
    eapply compute_follow_mono; [|done]. lia.
Qed.

(** X15.  On a grammar accepted by [Grammar.__init__] that has no left
    recursion and does not use ["$"] as a non-terminal, [get_ll1_table]
    returns: it yields a table or [None], raises nothing, and [is_ll1]
    returns the matching truth value. *)
Theorem get_ll1_table_returns (G : Grammar) (nl : string → bool)
    (rank : string → nat) :
  valid G → no_left_recursion G nl rank = true →
  "$" ∉ non_terminals G →
  ∃ fuel r, get_ll1_table G fuel = Ret r
            ∧ is_ll1 G fuel = Ret (bool_decide (is_Some r)).
Proof.
  intros Hvalid Hranked Hdollar.
  destruct (ranked_attempts_total G nl rank Hvalid Hranked)
    as (fuel & cs & Hcs).
  exists fuel.
  assert (∃ r, get_ll1_table G fuel = Ret r) as [r Hr].
  { unfold get_ll1_table.
    rewrite (place_productions_all _ _ _ _ _ Hcs). simpl.
    destruct (decide (NoDup (cell_key <$> cs))) as [Hnd | Hnd].
    - destruct (place_all_Some cs [] ∅ Hnd) as [used' ->].
      { apply Forall_forall. set_solver. }
      simpl. unfold LL1Table_init.
      destruct (valid_inv G Hvalid) as (Hdisj & _ & _).
      rewrite bool_decide_eq_false_2 by set_solver.
      rewrite (attempts_cell_ok G fuel cs Hvalid Hcs). simpl. by eexists.
    - rewrite place_all_None by (by intros [? _]). by eexists. }
  exists r. split; [done|]. unfold is_ll1. by rewrite Hr.
Qed.

Lemma get_ll1_table_returns_witness :
  ∃ fuel r, get_ll1_table g_expr fuel = Ret r
            ∧ is_ll1 g_expr fuel = Ret (bool_decide (is_Some r)).
Proof.
  apply (get_ll1_table_returns g_expr
           (λ s, bool_decide (s ∈ ({[ "X"; "Y" ]} : gset string)))
           (λ s, if bool_decide (s = "E") then 1 else 0)).
  - vm_compute. reflexivity.
  - vm_compute. reflexivity.
  - vm_compute. intros H. discriminate H.
Defined.

(** X16.  On a grammar that uses ["$"] as a non-terminal, [get_ll1_table]
    never returns a table and [is_ll1] never returns [True]: when the
    attempts at cells are free of conflicts, [LL1Table.__init__] finds
    ["$"] in both alphabets and [get_ll1_table] raises [ValueError]. *)
Theorem get_ll1_table_end_marker_clash (G : Grammar) (fuel : nat) :
  "$" ∈ non_terminals G →
  (∀ t, get_ll1_table G fuel ≠ Ret (Some t))
  ∧ is_ll1 G fuel ≠ Ret true
  ∧ ∀ cs, attempts G fuel = Ret cs → NoDup (cell_key <$> cs) →
          get_ll1_table G fuel = Raise ValueError.
Proof.
  intros Hdollar.
  assert (∀ t, get_ll1_table G fuel ≠ Ret (Some t)) as Hno.
  { intros t (cs & _ & _ & (Hdisj & _)%LL1Table_init_Ret)%get_ll1_table_Some.
    set_solver. }
  split_and!; [done| |].
  - unfold is_ll1. intros (r & Hr & [= Hb])%bind_Ret.
    destruct r as [t|]; [by apply (Hno t)|done].
  - intros cs Hcs Hnd. unfold get_ll1_table.
    rewrite (place_productions_all _ _ _ _ _ Hcs). simpl.
    destruct (place_all_Some cs [] ∅ Hnd) as [used' ->].
    { apply Forall_forall. set_solver. }
    simpl. unfold LL1Table_init.
    by rewrite bool_decide_eq_true_2 by set_solver.
Qed.

Lemma get_ll1_table_end_marker_clash_witness :
  (∀ t, get_ll1_table (mkGrammar {[ "a" ]} {[ "$" ]} [ mkProduction "$" "a" ] "$") 5
        ≠ Ret (Some t))
  ∧ is_ll1 (mkGrammar {[ "a" ]} {[ "$" ]} [ mkProduction "$" "a" ] "$") 5
    ≠ Ret true
  ∧ ∀ cs,
      attempts (mkGrammar {[ "a" ]} {[ "$" ]} [ mkProduction "$" "a" ] "$") 5
      = Ret cs →
      NoDup (cell_key <$> cs) →
      get_ll1_table (mkGrammar {[ "a" ]} {[ "$" ]} [ mkProduction "$" "a" ] "$") 5
      = Raise ValueError.
Proof.
  apply (get_ll1_table_end_marker_clash
           (mkGrammar {[ "a" ]} {[ "$" ]} [ mkProduction "$" "a" ] "$") 5).
  vm_compute. reflexivity.
Defined.

(** ** Equality of parse trees *)

Lemma ParseTree_eq_true : ∀ t1 t2, ParseTree_eq t1 t2 = true → t1 = t2.
Proof.
  fix IH 1. intros [r1 cs1] [r2 cs2]. simpl.
  intros [[Hr%bool_decide_eq_true Hlen%bool_decide_eq_true]%andb_true_iff
            Hall]%andb_true_iff.
  subst r2. f_equal. revert cs2 Hlen Hall.
  induction cs1 as [|x cs1 IHcs]; intros [|y cs2] Hlen Hall; try done.
  apply andb_true_iff in Hall as [Hxy Hrest]. f_equal.
  - by apply IH.
  - apply IHcs; [by injection Hlen|done].
Qed.

Lemma ParseTree_eq_refl : ∀ t, ParseTree_eq t t = true.
Proof.
  fix IH 1. intros [r cs]. simpl.
  rewrite !bool_decide_eq_true_2 by done. simpl.
  induction cs as [|x cs IHcs]; [done|].
  by rewrite IH, IHcs.
Qed.

(** X17.  [ParseTree.__eq__] is structural equality: it answers [True]
    exactly when the two trees have the same root and the same children,
    recursively; a tree with fewer children is never equal to one with
    more, although [zip] stops at the shorter list. *)
Theorem ParseTree_eq_iff (t1 t2 : ParseTree) :
  ParseTree_eq t1 t2 = true ↔ t1 = t2.
Proof.
  split; [apply ParseTree_eq_true|]. intros ->. apply ParseTree_eq_refl.
Qed.

(** ** Direct left recursion *)

Lemma compute_first_rec_left_recursive (G : Grammar) (a : ascii)
    (alpha : string) :
  mkProduction (char a) (String a alpha) ∈ productions G →
  char a ∉ terminals G →
  ∀ d rest R, compute_first_rec G d (String a rest) ≠ Ret R.
Proof.
  intros Hp Ha. induction d as [|d IH]; intros rest R; simpl; [done|].
  rewrite bool_decide_eq_false_2 by done.
  intros [Hsub _]%first_loop_Ret_inv.
  destruct (Hsub _ Hp eq_refl) as [Rp HRp]. simpl in HRp.
  rewrite string_app_cons in HRp. by apply IH in HRp.
Qed.

Lemma attempts_of_first (G : Grammar) (fuel : nat) (ps : list Production) cs :
  attempts_of G fuel ps = Ret cs →
  ∀ p, p ∈ ps → ∃ F, compute_first G fuel (right p) = Ret F.
Proof.
  revert cs. induction ps as [|q ps IH]; intros cs; simpl.
  - intros _ p Hp. by apply elem_of_nil in Hp.
  - intros (cs1 & Hcs1 & (cs2 & Hcs2 & _)%bind_Ret)%bind_Ret p Hp.
    apply bind_Ret in Hcs1 as (F & HF & _).
    apply elem_of_cons in Hp as [-> | Hp]; [by exists F|by eapply IH].
Qed.

(** X18.  On a grammar with a directly left-recursive production
    [A -> A alpha], [compute_first] never returns on a sentence over the
    alphabets that begins with [A]: every recursion budget is exhausted.
    As a consequence [get_ll1_table] never returns a table for such a
    grammar. *)
Theorem compute_first_left_recursive (G : Grammar) (a : ascii)
    (alpha rest : string) :
  mkProduction (char a) (String a alpha) ∈ productions G →
  char a ∉ terminals G →
  sentence_ok G (String a rest) = true →
  diverges (λ fuel, compute_first G fuel (String a rest))
  ∧ ∀ fuel t, get_ll1_table G fuel ≠ Ret (Some t).
Proof.
  intros Hp Ha Hok. split.
  - intros fuel. unfold compute_first. rewrite Hok.
    destruct (compute_first_rec G fuel (String a rest)) as [R|e|] eqn:E; [| |done].
    + by apply compute_first_rec_left_recursive with (alpha := alpha) in E.
    + by apply compute_first_rec_no_raise in E.
  - intros fuel t (cs & Hcs & _)%get_ll1_table_Some.
    destruct (attempts_of_first _ _ _ _ Hcs _ Hp) as [F HF]. simpl in HF.
    apply compute_first_Ret in HF as [_ HF].
    by apply compute_first_rec_left_recursive with (alpha := alpha) in HF.
Qed.

Lemma compute_first_left_recursive_witness :
  diverges (λ fuel, compute_first g_loop fuel (String "A" ""))
  ∧ ∀ fuel t, get_ll1_table g_loop fuel ≠ Ret (Some t).
Proof.
  apply (compute_first_left_recursive g_loop "A"%char "" "").
  - apply list_elem_of_here.
  - vm_compute. intros H. discriminate H.
  - vm_compute. reflexivity.
Defined.

(** ** The recognizer halts on tables built from grammars *)

Lemma first_dom_of_Ret (G : Grammar) (d : nat) (s : string) R :
  compute_first_rec G d s = Ret R → first_dom G s.
Proof.
  revert s R. induction d as [|d IH]; intros s R; simpl; [done|].
  destruct s as [|c rest]; [constructor|].
  case_bool_decide as Hc; [by constructor|].
  intros [Hsub _]%first_loop_Ret_inv. apply first_dom_expand; [done|].
  intros p Hp Hl. destruct (Hsub p Hp Hl) as [Rp HRp]. by eapply IH.
Qed.

Lemma first_dom_app (G : Grammar) (u w : string) :
  first_dom G u → first_dom G w → first_dom G (u +:+ w).
Proof.
  induction 1 as [|c rest Hc|c rest Hc _ IH]; intros Hw; [done|..];
    rewrite string_app_cons.
  - by constructor.
  - apply first_dom_expand; [done|]. intros p Hp Hl.
    rewrite <- string_app_assoc. by apply IH.
Qed.

Lemma first_dom_everywhere (G : Grammar) :
  (∀ p, p ∈ productions G → first_dom G (right p)) →
  ∀ s, first_dom G s.
Proof.
  intros Hps. induction s as [|c w IH]; [constructor|].
  destruct (decide (char c ∈ terminals G)) as [Hc | Hc]; [by constructor|].
  apply first_dom_expand; [done|]. intros p Hp _.
  apply first_dom_app; [by apply Hps|done].
Qed.

Section AnalyzeHalts.
Context (G : Grammar) (self : LL1Table).
Hypothesis Hcells : ∀ A a rhs,
  cells self !! (A, a) = Some rhs → mkProduction A rhs ∈ productions G.
Hypothesis Hterminal : ∀ A a,
  A ∈ terminals G → cells self !! (A, a) = None.
Hypothesis Hdom : ∀ s, first_dom G s.

Lemma analyze_loop_halts (input_string : string) :
  ∀ start, ∃ fuel,
    (∃ st, analyze_loop self fuel start input_string = Ret st)
    ∨ analyze_loop self fuel start input_string = Raise SyntaxError.
Proof.
  induction input_string as [|a i IHi]; intros start.
  { exists 0. left. eexists. apply analyze_loop_exit.
    apply analyze_cond_false. by right. }
  induction (Hdom start) as [|c rest Hc|c rest Hc _ IH].
  - exists 0. left. eexists. apply analyze_loop_exit.
    apply analyze_cond_false. by left.
  - exists 1. right.
    rewrite analyze_loop_S by (apply analyze_cond_true; eauto 6).
    assert (analyze_body self (String c rest) (String a i) = Raise SyntaxError)
      as -> by (apply analyze_body_Raise; split; [done|by apply Hterminal]).
    done.
  - destruct (analyze_body self (String c rest) (String a i)) as [st|e|] eqn:E.
    + pose proof E as Hstep%analyze_body_Ret.
      assert (∃ fuel,
                (∃ st', analyze_loop self fuel st.1 st.2 = Ret st')
                ∨ analyze_loop self fuel st.1 st.2 = Raise SyntaxError)
        as [fuel Hfuel].
      { inversion Hstep as [???? rhs s' Hcell Happ|???? rhs Hcell Hne]; subst;
          simpl.
        - apply IHi.
        - apply (IH (mkProduction (char c) rhs)); [by eapply Hcells|done]. }
      exists (S fuel).
      rewrite analyze_loop_S by (apply analyze_cond_true; eauto 6).
      by rewrite E.
    + destruct (proj1 (analyze_body_Raise self c rest a i e) E) as [-> _].
      exists 1. right.
      rewrite analyze_loop_S by (apply analyze_cond_true; eauto 6).
      by rewrite E.
    + by apply analyze_body_no_timeout in E.
Qed.
End AnalyzeHalts.

Lemma get_ll1_table_productions (G : Grammar) (fuel : nat) (t : LL1Table) :
  get_ll1_table G fuel = Ret (Some t) →
  (∀ A a rhs, cells t !! (A, a) = Some rhs →
              mkProduction A rhs ∈ productions G)
  ∧ ∀ p, p ∈ productions G → first_dom G (right p).
Proof.
  intros (cs & Hcs & Hnd & (_ & _ & ->)%LL1Table_init_Ret)%get_ll1_table_Some.
  split.
  - simpl. intros A a rhs (c & Hc & Hk & Hr)%cells_dict_lookup.
    apply (attempts_of_elem _ _ _ _ _ Hcs) in Hc
      as (p & F & x & Hp & HF & Hx & Hc).
    destruct p as [l r]. simpl in *.
    destruct Hc as [[Hne ->] | (-> & Fo & HFo & a' & Ha' & ->)];
      unfold cell_key in Hk; simpl in *; injection Hk as -> ->; by subst rhs.
  - intros p Hp. destruct (attempts_of_first _ _ _ _ Hcs _ Hp) as [F HF].
    apply compute_first_Ret in HF as [_ HF]. by eapply first_dom_of_Ret.
Qed.

(** X19.  With a table that [get_ll1_table] returned for a grammar
    accepted by [Grammar.__init__], [analyze] halts on every input and
    every start string: it returns the (empty) parse tree or raises
    [SyntaxError], and never loops. *)
Theorem analyze_halts (G : Grammar) (fuel : nat) (t : LL1Table)
    (input_string start : string) :
  valid G →
  get_ll1_table G fuel = Ret (Some t) →
  ∃ fuel', analyze t fuel' input_string start = Ret (mkParseTree "" [])
           ∨ analyze t fuel' input_string start = Raise SyntaxError.
Proof.
  intros Hvalid [Hcells Hright]%get_ll1_table_productions.
  destruct (valid_inv G Hvalid) as (Hdisj & _ & Hps).
  rewrite forallb_elem in Hps.
  destruct (analyze_loop_halts G t Hcells) with (input_string := input_string)
    (start := start) as [fuel' Hloop].
  - intros A a HA. destruct (cells t !! (A, a)) as [rhs|] eqn:Hcell; [|done].
    apply Hcells, Hps, production_ok_iff in Hcell as [HN _]. simpl in HN.
    set_solver.
  - by apply first_dom_everywhere.
  - exists fuel'. unfold analyze.
    destruct Hloop as [[st ->] | ->]; [|by right]. simpl.
    case_bool_decide; [by right|by left].
Qed.

Lemma analyze_halts_witness :
  ∃ fuel', analyze (mkLL1Table {[ "a"; "b"; "$" ]} {[ "S" ]}
                      {[ ("S", "a") := "ab" ]}) fuel' "ab$" "S"
           = Ret (mkParseTree "" [])
           ∨ analyze (mkLL1Table {[ "a"; "b"; "$" ]} {[ "S" ]}
                        {[ ("S", "a") := "ab" ]}) fuel' "ab$" "S"
             = Raise SyntaxError.
Proof.
  apply (analyze_halts g_ab 5).
  - vm_compute. reflexivity.
  - vm_compute. reflexivity.
Defined.
